(** * Reachability explorer for interleaved state machines

    A shallow embedding of [solution.py]: the immutable variable store
    [Memory], the state-machine instance [Thread], the global state
    [GlobalState] with its successor function, and the worklist loop of
    [main] that accumulates the set [used] of discovered states and the set
    [transitions] of discovered steps. *)

From stdpp Require Import base gmap sets fin_sets listset listset_nodup list
  strings pretty sorting relations.
From Stdlib Require Import ZArith.

Local Open Scope Z_scope.
Local Open Scope string_scope.

(** ** Exceptions and results

    A Python call either returns a value or raises.  Three exceptions come
    out of the code modelled here: [IndexError] from indexing a table with a
    program counter outside of it, [ValueError] from unpacking a tuple that
    does not have four components, and [TypeError] from calling [Memory.set]
    with a keyword that its signature cannot take. *)

Inductive exn : Type :=
  | IndexError
  | ValueError
  | TypeError.

Inductive res (A : Type) : Type :=
  | Ok (a : A)
  | Raise (e : exn).
Arguments Ok {A} a.
Arguments Raise {A} e.

(** Sequencing: the first exception raised ends the computation.  The
    instances give [res] the notation [x ← r; k]. *)
Global Instance res_ret : MRet res := λ A a, Ok a.
Global Instance res_bind : MBind res := λ A B k r,
  match r with
  | Ok a => k a
  | Raise e => Raise e
  end.

(** ** Memory

    [vars] is a [frozendict] from variable names to values; the values used
    by the models are integers. *)

Record Memory : Type := MkMemory { vars : gmap string Z }.

Global Instance Memory_eq_dec : EqDecision Memory.
Proof. solve_decision. Defined.

(** [Memory.set], whose signature is [set(self, **kwargs)].  A keyword named
    [self] cannot be bound: the receiver already is the value of [self], and
    the call raises [TypeError] before the body runs.  Otherwise the body
    copies the receiver's dictionary, assigns every item of [kwargs] in
    iteration order, and wraps the copy in a new [Memory].  [kwargs] is a
    dictionary: its keys are pairwise different, so the order in which its
    items come does not change the result ([Memory_set_cases]). *)
Definition Memory_set (self : Memory) (kwargs : gmap string Z) : res Memory :=
  match kwargs !! "self" with
  | Some _ => Raise TypeError
  | None =>
      let new_vars := vars self in
      Ok (MkMemory
            (foldl (λ acc kv, <[kv.1 := kv.2]> acc) new_vars (map_to_list kwargs)))
  end.

(** [Memory.get]: [dict.get], which answers [None] for an absent key. *)
Definition Memory_get (self : Memory) (key : string) : option Z :=
  vars self !! key.

(** *** The same update on a store of mutable dictionaries

    [Memory.set] works by mutation: [dict(self.vars)] allocates a new
    dictionary object, and the loop assigns into that object.  The store
    below maps object identities to dictionaries, so that the receiver's
    dictionary and the copy are different objects of one heap. *)

Abbreviation Heap := (gmap nat (gmap string Z)).




(** ** Thread

    The entries of [states] are function objects.  Python compares and
    hashes function objects by identity, so a table is a list of identities
    [Fn] with decidable equality; [call] gives the behaviour of each
    object.  Calling a transition function gives a tuple, the
    four-component one that [Thread.run] unpacks or a three-component one as
    [nop] returns, or it raises an exception. *)

Inductive PyTuple : Type :=
  | Tuple4 (new_shared_memory new_local_memory : Memory) (new_state : Z)
           (is_running : bool)
  | Tuple3 (new_shared_memory new_local_memory : Memory) (new_state : Z)
  | Raised (e : exn).

(** The four-component tuple a [lambda] builds, or the exception raised
    while its components are evaluated. *)
Definition tuple4 (r : res (Memory * Memory * Z * bool)) : PyTuple :=
  match r with
  | Ok (s, l, c, b) => Tuple4 s l c b
  | Raise e => Raised e
  end.

Section Explorer.

Context {Fn : Type} `{EqDecision Fn}.
Variable call : Fn → Memory → Memory → PyTuple.

Record Thread : Type := MkThread {
  local_memory : Memory;
  states : list Fn;
  name : string;
  current_state : Z;
  is_running : bool
}.

Global Instance Thread_eq_dec : EqDecision Thread.
Proof. solve_decision. Defined.

(** [seq[i]] for a Python sequence: a negative index counts from the end,
    and an index outside of [-len, len) raises [IndexError]. *)
Definition py_index {A : Type} (l : list A) (i : Z) : res A :=
  let n := Z.of_nat (length l) in
  let j := if bool_decide (i < 0) then i + n else i in
  if bool_decide (0 ≤ j < n) then
    match l !! Z.to_nat j with
    | Some x => Ok x
    | None => Raise IndexError
    end
  else Raise IndexError.

(** The call of the entry followed by the unpacking into four names: an
    exception of the entry goes through, and three components are too few. *)
Definition unpack4 (t : PyTuple) : res (Memory * Memory * Z * bool) :=
  match t with
  | Tuple4 s l c r => Ok (s, l, c, r)
  | Tuple3 _ _ _ => Raise ValueError
  | Raised e => Raise e
  end.

(** [Thread.run] *)
Definition Thread_run (self : Thread) (shared_memory : Memory)
    : res (Thread * Memory) :=
  f ← py_index (states self) (current_state self);
  '(new_shared_memory, new_local_memory, new_state, running) ←
    unpack4 (call f shared_memory (local_memory self));
  Ok (MkThread new_local_memory (states self) (name self) new_state running,
      new_shared_memory).

(** ** GlobalState *)

Record GlobalState : Type := MkGlobalState {
  shared_memory : Memory;
  threads : list Thread
}.

Global Instance GlobalState_eq_dec : EqDecision GlobalState.
Proof. solve_decision. Defined.

(** A Python [set] of global states.  Nothing below depends on how the set
    is represented or on the order in which it is iterated: [StateSet] is any
    implementation of finite sets, and [elements] is its iteration. *)
Context {StateSet : Type}
  `{ElemOf GlobalState StateSet, Empty StateSet, Singleton GlobalState StateSet,
    Union StateSet, Intersection StateSet, Difference StateSet,
    Elements GlobalState StateSet}
  `{!FinSet GlobalState StateSet}.

(** The body of the [for i in range(len(self.threads))] loop of
    [GlobalState.run], for the indices [idx] still to come and the set
    [result] built so far. *)
Fixpoint run_loop (self : GlobalState) (idx : list nat)
    (result : StateSet) : res (StateSet) :=
  match idx with
  | [] => Ok result
  | i :: idx' =>
      thread ← py_index (threads self) (Z.of_nat i);
      if negb (is_running thread) then run_loop self idx' result
      else
        '(new_state, new_shared_memory) ← Thread_run thread (shared_memory self);
        let new_thread_pool := <[i := new_state]> (threads self) in
        run_loop self idx'
          ({[ MkGlobalState new_shared_memory new_thread_pool ]} ∪ result)
  end.

(** [GlobalState.run] *)
Definition GlobalState_run (self : GlobalState) : res (StateSet) :=
  run_loop self (seq 0 (length (threads self))) ∅.

(** ** Transition *)

Record Transition : Type := MkTransition {
  start : GlobalState;
  end_ : GlobalState
}.

Global Instance Transition_eq_dec : EqDecision Transition.
Proof. solve_decision. Defined.

Context {TransitionSet : Type}
  `{ElemOf Transition TransitionSet, Empty TransitionSet,
    Singleton Transition TransitionSet, Union TransitionSet,
    Intersection TransitionSet, Difference TransitionSet,
    Elements Transition TransitionSet}
  `{!FinSet Transition TransitionSet}.

(** ** The worklist loop of [main]

    The three variables of [main]: the set [used], the deque [queue] and the
    set [transitions]. *)

Record Explorer : Type := MkExplorer {
  used : StateSet;
  queue : list GlobalState;
  transitions : TransitionSet
}.

(** The state [main] enters the loop with: [used] and [transitions] are
    [set()], and the queue holds the initial global state. *)
Definition main_init (initial : GlobalState) : Explorer :=
  MkExplorer ∅ [initial] ∅.

(** One pass through the body of [while len(queue) > 0], for a queue whose
    head is [item] and whose rest is [rest]. *)
Definition main_body (st : Explorer) (item : GlobalState)
    (rest : list GlobalState) : res Explorer :=
  new_states ← GlobalState_run item;
  let transitions' :=
    foldl (λ acc i, {[ MkTransition item i ]} ∪ acc) (transitions st)
      (elements new_states) in
  let clean_new_states := new_states ∖ used st in
  Ok (MkExplorer (used st ∪ clean_new_states)
        (rest ++ elements clean_new_states) transitions').

(** How a run of the loop ends: the queue became empty, an exception left
    the loop, or the given number of iterations did not suffice. *)
Inductive outcome : Type :=
  | Finished (st : Explorer)
  | Aborted (e : exn)
  | OutOfFuel.

Fixpoint main_loop (fuel : nat) (st : Explorer) : outcome :=
  match queue st with
  | [] => Finished st
  | item :: rest =>
      match fuel with
      | O => OutOfFuel
      | S fuel' =>
          match main_body st item rest with
          | Ok st' => main_loop fuel' st'
          | Raise e => Aborted e
          end
      end
  end.

(** The exploration of [main] from a given initial global state. *)
Definition explore (fuel : nat) (initial : GlobalState) : outcome :=
  main_loop fuel (main_init initial).

(** [candidate self c'] says that [c'] is what stepping one running thread of
    [self] gives: the thread at some index [i] is replaced by the
    thread its step returns, and the shared memory by the memory it
    returns. *)
Definition candidate_at (self : GlobalState) (i : nat) (c' : GlobalState) : Prop :=
  ∃ (thread new_state : Thread) (new_shared_memory : Memory),
    threads self !! i = Some thread ∧
    is_running thread = true ∧
    Thread_run thread (shared_memory self) = Ok (new_state, new_shared_memory) ∧
    c' = MkGlobalState new_shared_memory (<[i := new_state]> (threads self)).

Definition candidate (self c' : GlobalState) : Prop :=
  ∃ i : nat, candidate_at self i c'.

(** Every running thread of [self] can take its step without raising. *)
Definition steps_ok (self : GlobalState) : Prop :=
  ∀ (i : nat) (thread : Thread),
    threads self !! i = Some thread → is_running thread = true →
    ∃ r, Thread_run thread (shared_memory self) = Ok r.

(** One step of the modelled system, and the states that steps lead to. *)
Definition successor (c c' : GlobalState) : Prop :=
  ∃ S, GlobalState_run c = Ok S ∧ c' ∈ S.

Definition reachable (c c' : GlobalState) : Prop := rtc successor c c'.

(** What every pass through the loop body keeps true of the three variables,
    for an exploration started at [initial]. *)
Record consistent (initial : GlobalState) (st : Explorer) : Prop := {
  (* a state that was taken from the queue has all its successors in [used] *)
  expanded_or_queued : ∀ c, c = initial ∨ c ∈ used st →
    c ∈ queue st ∨ ∃ S, GlobalState_run c = Ok S ∧ ∀ c', c' ∈ S → c' ∈ used st;
  queue_known : ∀ c, c ∈ queue st → c = initial ∨ c ∈ used st;
  transitions_sound : ∀ tr, tr ∈ transitions st →
    successor (start tr) (end_ tr) ∧ end_ tr ∈ used st ∧
    (start tr = initial ∨ start tr ∈ used st);
  used_reachable : ∀ c, c ∈ used st → reachable initial c
}.

End Explorer.

Arguments Thread : clear implicits.
Arguments GlobalState : clear implicits.
Arguments Transition : clear implicits.
Arguments Explorer : clear implicits.
Arguments outcome : clear implicits.

(** ** The model explored by [main]

    Two threads, [P] and [Q], over the shared variables [a] and [b].  Every
    [lambda] of the two tables is a function object of its own; [nop] is one
    object that both tables hold at index 0. *)

Module Main.

Inductive fn : Type :=
  | nop
  | P_1 | P_2 | P_3 | P_4
  | Q_1 | Q_2 | Q_3.

Global Instance fn_eq_dec : EqDecision fn.
Proof. solve_decision. Defined.

Definition call (f : fn) (shared local : Memory) : PyTuple :=
  match f with
  | nop => Tuple3 shared local 1
  | P_1 => tuple4 (new_shared ← Memory_set shared {[ "a" := 1 ]};
                  Ok (new_shared, local, 2, true))
  | P_2 =>
      if bool_decide (Memory_get shared "b" ≠ Some 0)
      then Tuple4 shared local 2 true
      else Tuple4 shared local 3 true
  | P_3 => Tuple4 shared local 4 true
  | P_4 => tuple4 (new_shared ← Memory_set shared {[ "a" := 0 ]};
                  Ok (new_shared, local, 1, true))
  | Q_1 => tuple4 (new_shared ← Memory_set shared {[ "b" := 1 ]};
                  Ok (new_shared, local, 2, true))
  | Q_2 =>
      if bool_decide (Memory_get shared "a" = Some 0)
      then Tuple4 shared local 4 false
      else Tuple4 shared local 3 true
  | Q_3 => tuple4 (new_shared ← Memory_set shared {[ "b" := 0 ]};
                  Ok (new_shared, local, 1, true))
  end.

(** Another behaviour of the same function objects: the entries of [Q]
    raise. *)
Definition call_Q_raising (f : fn) (shared local : Memory) : PyTuple :=
  match f with
  | Q_1 | Q_2 | Q_3 => Raised ValueError
  | _ => call f shared local
  end.

Definition P_states : list fn := [nop; P_1; P_2; P_3; P_4].
Definition Q_states : list fn := [nop; Q_1; Q_2; Q_3].

Definition initial : GlobalState fn :=
  MkGlobalState (MkMemory {[ "a" := 0; "b" := 0 ]})
    [ MkThread (MkMemory ∅) P_states "P" 1 true;
      MkThread (MkMemory ∅) Q_states "Q" 1 true ].

(** [Q] after it took the branch of its entry 2 that clears the running
    flag, and two global states with that [Q]: [P] at entry 1, and [P] after
    its step from there. *)
Definition Q_stopped : Thread fn := MkThread (MkMemory ∅) Q_states "Q" 4 false.

Definition blocked : GlobalState fn :=
  MkGlobalState (MkMemory {[ "a" := 0; "b" := 1 ]})
    [ MkThread (MkMemory ∅) P_states "P" 1 true; Q_stopped ].

Definition blocked_next : GlobalState fn :=
  MkGlobalState (MkMemory {[ "a" := 1; "b" := 1 ]})
    [ MkThread (MkMemory ∅) P_states "P" 2 true; Q_stopped ].

End Main.

(** ** Small models

    Scenario A: one thread whose only transition function sets [x] to 1 and
    moves to program counter 1, started at program counter 0 with [x = 0].
    [table] is the one-entry table; [table_loop] has a second entry, [stay],
    which keeps the thread at program counter 1. *)

Module ScenarioA.

Inductive fn : Type :=
  | set_x
  | stay.

Global Instance fn_eq_dec : EqDecision fn.
Proof. solve_decision. Defined.

Definition call (f : fn) (shared local : Memory) : PyTuple :=
  match f with
  | set_x => tuple4 (new_shared ← Memory_set shared {[ "x" := 1 ]};
                    Ok (new_shared, local, 1, true))
  | stay => Tuple4 shared local 1 true
  end.

Definition table : list fn := [set_x].
Definition table_loop : list fn := [set_x; stay].

Definition x0 : Memory := MkMemory {[ "x" := 0 ]}.
Definition x1 : Memory := MkMemory {[ "x" := 1 ]}.

Definition at_pc (states : list fn) (shared : Memory) (pc : Z) : GlobalState fn :=
  MkGlobalState shared [ MkThread (MkMemory ∅) states "P" pc true ].

Definition initial : GlobalState fn := at_pc table x0 0.
Definition initial_loop : GlobalState fn := at_pc table_loop x0 0.

End ScenarioA.

(** A thread whose transition function clears its running flag. *)

Module Blocking.

Inductive fn : Type :=
  | halt.

Global Instance fn_eq_dec : EqDecision fn.
Proof. solve_decision. Defined.

Definition call (f : fn) (shared local : Memory) : PyTuple :=
  match f with
  | halt => Tuple4 shared local 1 false
  end.

Definition thread (pc : Z) (running : bool) : Thread fn :=
  MkThread (MkMemory ∅) [halt] "P" pc running.

Definition initial : GlobalState fn := MkGlobalState (MkMemory ∅) [thread 0 true].
Definition stopped : GlobalState fn := MkGlobalState (MkMemory ∅) [thread 1 false].

End Blocking.

(** A store with one dictionary, the one [main] starts with, as object 0. *)
Definition main_vars : gmap string Z := {[ "a" := 0; "b" := 0 ]}.

(** The thread of scenario A with its running flag cleared. *)
Definition stopped_at_zero : Thread ScenarioA.fn :=
  MkThread (MkMemory ∅) ScenarioA.table "P" 0 false.

(** The concrete runs below keep their sets as lists. *)
Abbreviation explore_list call fuel initial :=
  (explore (StateSet := listset (GlobalState _))
     (TransitionSet := listset (Transition _)) call fuel initial).
Abbreviation run_list call self :=
  (GlobalState_run (StateSet := listset (GlobalState _)) call self).
Abbreviation reachable_list call c c' :=
  (reachable (StateSet := listset (GlobalState _)) call c c').
Abbreviation ListExplorer Fn :=
  (Explorer Fn (listset (GlobalState Fn)) (listset (Transition Fn))).

Definition finishes {Fn StateSet TransitionSet : Type}
    (o : outcome Fn StateSet TransitionSet) : bool :=
  match o with
  | Finished _ => true
  | _ => false
  end.

(** Checks on one global state of [main]'s model: no thread is at program
    counter 0, no thread's current table entry is [nop], and the successor
    set can be computed. *)
Definition no_thread_at_zero {Fn : Type} (c : GlobalState Fn) : bool :=
  forallb (λ t, negb (Z.eqb (current_state t) 0)) (threads c).

Definition not_at_nop (c : GlobalState Main.fn) : bool :=
  forallb (λ t, match py_index (states t) (current_state t) with
                | Ok Main.nop => false
                | _ => true
                end) (threads c).

Definition run_returns (c : GlobalState Main.fn) : bool :=
  match run_list Main.call c with
  | Ok _ => true
  | Raise _ => false
  end.

Definition main_state_ok (c : GlobalState Main.fn) : bool :=
  no_thread_at_zero c && not_at_nop c && run_returns c.

(** The run of [main]: fifteen passes through the loop body empty the
    queue.  [main_checked] says that the run ends that way and that the
    initial global state and every global state of the final [used] pass
    the checks. *)
Definition main_fuel : nat := 15.

Definition main_initial_used : bool :=
  match explore_list Main.call main_fuel Main.initial with
  | Finished st => bool_decide (Main.initial ∈ elements (used st))
  | _ => false
  end.

Definition main_checked : bool :=
  match explore_list Main.call main_fuel Main.initial with
  | Finished st => forallb main_state_ok (Main.initial :: elements (used st))
  | _ => false
  end.

(** Scenario A with the two-entry table: the run ends after two passes; the
    checks say whether the initial global state is in the final [used], and
    whether the transition out of it is in the final [transitions]. *)
Definition loop_initial_used : bool :=
  match explore_list ScenarioA.call 2 ScenarioA.initial_loop with
  | Finished st => bool_decide (ScenarioA.initial_loop ∈ elements (used st))
  | _ => true
  end.

Definition loop_first_transition : Transition ScenarioA.fn :=
  MkTransition ScenarioA.initial_loop
    (ScenarioA.at_pc ScenarioA.table_loop ScenarioA.x1 1).

Definition loop_first_transition_recorded : bool :=
  match explore_list ScenarioA.call 2 ScenarioA.initial_loop with
  | Finished st => bool_decide (loop_first_transition ∈ elements (transitions st))
  | _ => false
  end.

(** ** Rendering

    [print] writes the [str] of each argument, [sep] between two of them and
    [end] after the last.  The arguments that reach it here are strings (the
    thread names) and integers (the program counters and the values of the
    shared variables). *)

Inductive PyObj : Type :=
  | PyStr (s : string)
  | PyInt (z : Z).

Definition py_str (o : PyObj) : string :=
  match o with
  | PyStr s => s
  | PyInt z => pretty z
  end.

(** [print_to_string], called with the arguments [args] and the keywords
    [sep] and [end]; both callers pass the two keywords. *)
Definition print_to_string (args : list PyObj) (sep end_ : string) : string :=
  String.concat sep (py_str <$> args) +:+ end_.

(** [GlobalState.__str__], for a dictionary that lists its keys in the order
    [keys].  The names are sorted as Python sorts strings, character by
    character; the value of each name is looked up ([keys] being the keys of
    the dictionary, every lookup finds one); the result is [[], then the name
    and the program counter of each thread followed by a comma, then the
    values separated by commas, then []]. *)
Definition GlobalState_str_from {Fn : Type} (keys : list string)
    (self : GlobalState Fn) : string :=
  let variables_names := merge_sort String.le keys in
  let variable_values :=
    omap (λ i, vars (shared_memory self) !! i) variables_names in
  let result :=
    foldl (λ result i,
             result +:+ print_to_string [PyStr (name i); PyInt (current_state i)]
                          "" ",")
      "[" (threads self) in
  result +:+ print_to_string (PyInt <$> variable_values) "," "]".

(** [GlobalState.__str__] *)
Definition GlobalState_str {Fn : Type} (self : GlobalState Fn) : string :=
  GlobalState_str_from (map_to_list (vars (shared_memory self))).*1 self.

(** [Transition.__str__] *)
Definition Transition_str {Fn : Type} (self : Transition Fn) : string :=
  GlobalState_str (start self) +:+ " -> " +:+ GlobalState_str (end_ self).

(** What a rendering shows of a thread. *)
Definition shown {Fn : Type} (t : Thread Fn) : string * Z :=
  (name t, current_state t).

(** [Main.blocked] with another [Q]: running, and with a local variable. *)
Definition blocked_variant : GlobalState Main.fn :=
  MkGlobalState (MkMemory {[ "a" := 0; "b" := 1 ]})
    [ MkThread (MkMemory ∅) Main.P_states "P" 1 true;
      MkThread (MkMemory {[ "t" := 7 ]}) Main.Q_states "Q" 4 true ].

(** The two global states of the blocking model, as a set. *)
Definition blocking_states : listset (GlobalState Blocking.fn) :=
  {[ Blocking.initial; Blocking.stopped ]}.

(** The same runs with sets kept as lists without repetitions. *)
Abbreviation explore_nodup call fuel initial :=
  (explore (StateSet := listset_nodup (GlobalState _))
     (TransitionSet := listset_nodup (Transition _)) call fuel initial).

(** * Properties of [Memory] *)

Section MemoryFacts.

Implicit Types (d kwargs : gmap string Z) (l : list (string * Z)).

Lemma assign_all_lookup l d (k : string) :
  NoDup l.*1 →
  foldl (λ acc kv, <[kv.1 := kv.2]> acc) d l !! k =
    match (list_to_map l : gmap string Z) !! k with
    | Some v => Some v
    | None => d !! k
    end.
Proof.
  revert d. induction l as [|[k0 v0] l IH]; intros d Hnd; simpl.
  - by rewrite lookup_empty.
  - apply NoDup_cons in Hnd as [Hk0 Hnd]. rewrite (IH _ Hnd).
    destruct (decide (k = k0)) as [->|Hne].
    + rewrite !lookup_insert_eq.
      by rewrite (not_elem_of_list_to_map_1 _ _ Hk0).
    + by rewrite !lookup_insert_ne.
Qed.

Lemma assign_all_union d kwargs :
  foldl (λ acc kv, <[kv.1 := kv.2]> acc) d (map_to_list kwargs) = kwargs ∪ d.
Proof.
  apply map_eq. intros k.
  rewrite assign_all_lookup by apply NoDup_fst_map_to_list.
  rewrite list_to_map_to_list.
  destruct (kwargs !! k) as [v|] eqn:Hk.
  - symmetry. by apply lookup_union_Some_l.
  - symmetry. by apply lookup_union_r.
Qed.

(** What [Memory.set] does, in one equation: [TypeError] for a keyword named
    [self], and otherwise the assignments laid over the receiver's
    dictionary. *)
Lemma Memory_set_cases (self : Memory) kwargs :
  Memory_set self kwargs =
    match kwargs !! "self" with
    | Some _ => Raise TypeError
    | None => Ok (MkMemory (kwargs ∪ vars self))
    end.
Proof.
  unfold Memory_set. destruct (kwargs !! "self"); [done|].
  by rewrite assign_all_union.
Qed.

Lemma union_lookup_cases d kwargs (k : string) :
  (kwargs ∪ d) !! k =
    match kwargs !! k with
    | Some v => Some v
    | None => d !! k
    end.
Proof.
  destruct (kwargs !! k) as [v|] eqn:Hk.
  - by apply lookup_union_Some_l.
  - by apply lookup_union_r.
Qed.




End MemoryFacts.

(** * Properties of the explorer *)

Section SuccessorFacts.

Context {Fn : Type} `{EqDecision Fn}.
Variable call : Fn → Memory → Memory → PyTuple.

Context {StateSet : Type}
  `{ElemOf (GlobalState Fn) StateSet, Empty StateSet,
    Singleton (GlobalState Fn) StateSet,
    Union StateSet, Intersection StateSet, Difference StateSet,
    Elements (GlobalState Fn) StateSet}
  `{!FinSet (GlobalState Fn) StateSet}.

Local Abbreviation run := (GlobalState_run (StateSet := StateSet) call).
Local Abbreviation step := (successor (StateSet := StateSet) call).
Local Abbreviation reach := (reachable (StateSet := StateSet) call).

(** *** Indexing *)

Lemma py_index_nat {A : Type} (l : list A) (i : nat) :
  py_index l (Z.of_nat i) =
    match l !! i with Some x => Ok x | None => Raise IndexError end.
Proof.
  unfold py_index. rewrite (bool_decide_eq_false_2 (Z.of_nat i < 0)) by lia.
  case_bool_decide as Hi.
  - by rewrite Nat2Z.id.
  - rewrite lookup_ge_None_2; [done | lia].
Qed.

(** *** The successor set *)

Lemma run_loop_spec (self : GlobalState Fn) (idx : list nat)
    (result S : StateSet) :
  run_loop call self idx result = Ok S →
  ∀ c', c' ∈ S ↔ c' ∈ result ∨ ∃ i, i ∈ idx ∧ candidate_at call self i c'.
Proof.
  revert result. induction idx as [|i idx IH]; intros result; simpl.
  - intros [= <-] c'. split; [auto|]. intros [?|(i & Hi & _)]; [done|].
    by apply elem_of_nil in Hi.
  - rewrite py_index_nat. destruct (threads self !! i) as [thread|] eqn:Hth;
      simpl; [|done].
    destruct (is_running thread) eqn:Hrun; simpl.
    + destruct (Thread_run call thread (shared_memory self))
        as [[new_state new_shared_memory]|] eqn:Hstep; simpl; [|done].
      intros HS c'. rewrite (IH _ HS c'), elem_of_union, elem_of_singleton.
      split.
      * intros [[->|?]|(j & Hj & Hc)]; [right|by left|right].
        -- exists i. split; [by left|]. by exists thread, new_state, new_shared_memory.
        -- exists j. split; [by right|done].
      * intros [?|(j & Hj & Hc)]; [by left; right|].
        apply elem_of_cons in Hj as [->|Hj]; [|right; by exists j].
        destruct Hc as (t & t' & sh' & Ht & _ & Hs & ->).
        left; left. congruence.
    + intros HS c'. rewrite (IH _ HS c'). split.
      * intros [?|(j & Hj & Hc)]; [by left|right].
        exists j. split; [by right|done].
      * intros [?|(j & Hj & Hc)]; [by left|].
        apply elem_of_cons in Hj as [->|Hj]; [|right; by exists j].
        destruct Hc as (t & _ & _ & Ht & Hr & _). congruence.
Qed.

Lemma run_loop_returns (self : GlobalState Fn) (idx : list nat)
    (result : StateSet) :
  steps_ok call self → (∀ i, i ∈ idx → (i < length (threads self))%nat) →
  ∃ S, run_loop call self idx result = Ok S.
Proof.
  intros Hok. revert result. induction idx as [|i idx IH]; intros result Hidx; simpl.
  - by eexists.
  - rewrite py_index_nat.
    destruct (lookup_lt_is_Some_2 (threads self) i) as [thread Hth];
      [apply Hidx; by left|].
    rewrite Hth; simpl.
    destruct (is_running thread) eqn:Hrun; simpl.
    + destruct (Hok i thread Hth Hrun) as [[new_state sh] ->]; simpl.
      apply IH. intros j Hj. apply Hidx. by right.
    + apply IH. intros j Hj. apply Hidx. by right.
Qed.

Lemma candidate_at_lt (self : GlobalState Fn) (i : nat) (c' : GlobalState Fn) :
  candidate_at call self i c' → (i < length (threads self))%nat.
Proof. intros (t & _ & _ & Ht & _). by eapply lookup_lt_Some. Qed.

Lemma GlobalState_run_spec (self : GlobalState Fn) (S : StateSet) :
  run self = Ok S → ∀ c', c' ∈ S ↔ candidate call self c'.
Proof.
  intros HS c'. rewrite (run_loop_spec _ _ _ _ HS c'). split.
  - intros [Hc|(i & _ & Hc)]; [set_solver|by exists i].
  - intros [i Hc]. right. exists i. split; [|done].
    apply elem_of_seq. pose proof (candidate_at_lt _ _ _ Hc). lia.
Qed.

Lemma GlobalState_run_returns (self : GlobalState Fn) :
  steps_ok call self → ∃ S : StateSet, run self = Ok S.
Proof.
  intros Hok. apply run_loop_returns; [done|].
  intros i Hi. apply elem_of_seq in Hi. lia.
Qed.

(** *** Threads that are not running *)

Lemma run_loop_all_stopped (self : GlobalState Fn) (idx : list nat)
    (result : StateSet) :
  (∀ t, t ∈ threads self → is_running t = false) →
  (∀ i, i ∈ idx → (i < length (threads self))%nat) →
  run_loop call self idx result = Ok result.
Proof.
  intros Hstop. induction idx as [|i idx IH]; intros Hidx; simpl; [done|].
  rewrite py_index_nat.
  destruct (lookup_lt_is_Some_2 (threads self) i) as [thread Hth];
    [apply Hidx; by left|].
  rewrite Hth; simpl.
  rewrite (Hstop thread) by (by eapply list_elem_of_lookup_2); simpl.
  apply IH. intros j Hj. apply Hidx. by right.
Qed.

Lemma successor_keeps_stopped (c c' : GlobalState Fn) (i : nat) (t : Thread Fn) :
  step c c' → threads c !! i = Some t → is_running t = false →
  threads c' !! i = Some t.
Proof.
  intros (S & HS & Hin) Ht Hstop.
  apply (GlobalState_run_spec _ _ HS) in Hin
    as (j & thread & new_state & sh & Hj & Hrun & _ & ->); simpl.
  rewrite list_lookup_insert_ne; [done|]. intros ->. congruence.
Qed.

(** ** The claims about the successor set *)

(** C3. [GlobalState.run] returns exactly the candidates: a global state is
    in the returned set if and only if it is the receiver with the thread at
    some index [i] that is running replaced by the thread its step returns
    and the shared memory replaced by the memory that step returns, every
    other thread kept; equal candidates are one element of the set.  The set
    is returned whenever every running thread can take its step. *)
Theorem GlobalState_run_exact (self : GlobalState Fn) :
  (∀ S : StateSet, run self = Ok S → ∀ c', c' ∈ S ↔ candidate call self c') ∧
  (steps_ok call self → ∃ S : StateSet, run self = Ok S).
Proof.
  split.
  - apply GlobalState_run_spec.
  - apply GlobalState_run_returns.
Qed.

(** C9. A thread that is not running stays as it is: in every global state
    that steps lead to from [c], the thread at index [i] is the thread [t]
    that [c] has there, so its running flag is still false. *)
Theorem stopped_thread_stays_stopped (c c' : GlobalState Fn) (i : nat)
    (t : Thread Fn) :
  reach c c' → threads c !! i = Some t → is_running t = false →
  threads c' !! i = Some t ∧ is_running t = false.
Proof.
  intros Hreach Ht Hstop. split; [|done].
  induction Hreach as [|c c1 c' Hstep _ IH]; [done|].
  apply IH. by eapply successor_keeps_stopped.
Qed.

End SuccessorFacts.

Section RunningFlag.

Context {Fn : Type} `{EqDecision Fn}.
Variables call call' : Fn → Memory → Memory → PyTuple.

Context {StateSet : Type}
  `{ElemOf (GlobalState Fn) StateSet, Empty StateSet,
    Singleton (GlobalState Fn) StateSet,
    Union StateSet, Intersection StateSet, Difference StateSet,
    Elements (GlobalState Fn) StateSet}
  `{!FinSet (GlobalState Fn) StateSet}.

Lemma run_loop_running_only (self : GlobalState Fn) (idx : list nat)
    (result : StateSet) :
  (∀ i t, threads self !! i = Some t → is_running t = true →
     Thread_run call t (shared_memory self) =
     Thread_run call' t (shared_memory self)) →
  run_loop call self idx result = run_loop call' self idx result.
Proof.
  intros Hsame. revert result. induction idx as [|i idx IH]; intros result;
    simpl; [done|].
  rewrite py_index_nat.
  destruct (threads self !! i) as [thread|] eqn:Hth; simpl; [|done].
  destruct (is_running thread) eqn:Hrun; simpl; [|apply IH].
  rewrite (Hsame i thread Hth Hrun).
  destruct (Thread_run call' thread (shared_memory self)) as [[t' sh']|];
    simpl; [apply IH|done].
Qed.

(** C5, as amended.  [Thread.run] does not look at the running flag: on a
    thread whose flag is false it does what it does on the same thread with
    the flag true.  Whenever the table has an entry at the current program
    counter and that entry returns a four-component tuple, it returns the
    updated thread and the new shared memory.  The flag is checked by
    [GlobalState.run]: every element of the set it returns comes from the
    step of a thread whose flag is true, and the threads whose flag is false
    are never stepped, that is, what [GlobalState.run] returns or raises is
    the same for any two behaviours of the table entries under which the
    threads whose flag is true step alike. *)
Theorem Thread_run_no_precondition :
  (∀ (local : Memory) (table : list Fn) (name : string) (pc : Z)
     (shared : Memory),
     Thread_run call (MkThread local table name pc false) shared =
     Thread_run call (MkThread local table name pc true) shared) ∧
  (∀ (t : Thread Fn) (shared : Memory) (f : Fn)
     (new_shared new_local : Memory) (new_state : Z) (running : bool),
     py_index (states t) (current_state t) = Ok f →
     call f shared (local_memory t)
       = Tuple4 new_shared new_local new_state running →
     Thread_run call t shared =
       Ok (MkThread new_local (states t) (name t) new_state running,
           new_shared)) ∧
  (∀ (self : GlobalState Fn) (S : StateSet) (c' : GlobalState Fn),
     GlobalState_run call self = Ok S → c' ∈ S →
     ∃ (i : nat) (thread : Thread Fn),
       threads self !! i = Some thread ∧ is_running thread = true ∧
       candidate_at call self i c') ∧
  (∀ self : GlobalState Fn,
     (∀ i t, threads self !! i = Some t → is_running t = true →
        Thread_run call t (shared_memory self) =
        Thread_run call' t (shared_memory self)) →
     GlobalState_run (StateSet := StateSet) call self =
     GlobalState_run (StateSet := StateSet) call' self).
Proof.
  split; [done|]. split; [|split].
  - intros t shared f new_shared new_local new_state running Hf Hcall.
    unfold Thread_run. rewrite Hf; simpl. by rewrite Hcall.
  - intros self S c' HS Hin.
    apply (GlobalState_run_spec call self S HS) in Hin as [i Hi].
    pose proof Hi as (thread & _ & _ & Hth & Hrun & _).
    by exists i, thread.
  - intros self Hsame. by apply run_loop_running_only.
Qed.

End RunningFlag.

Section LoopFacts.

Context {Fn : Type} `{EqDecision Fn}.
Variable call : Fn → Memory → Memory → PyTuple.

Context {StateSet : Type}
  `{ElemOf (GlobalState Fn) StateSet, Empty StateSet,
    Singleton (GlobalState Fn) StateSet,
    Union StateSet, Intersection StateSet, Difference StateSet,
    Elements (GlobalState Fn) StateSet}
  `{!FinSet (GlobalState Fn) StateSet}.

Context {TransitionSet : Type}
  `{ElemOf (Transition Fn) TransitionSet, Empty TransitionSet,
    Singleton (Transition Fn) TransitionSet, Union TransitionSet,
    Intersection TransitionSet, Difference TransitionSet,
    Elements (Transition Fn) TransitionSet}
  `{!FinSet (Transition Fn) TransitionSet}.

Local Abbreviation run := (GlobalState_run (StateSet := StateSet) call).
Local Abbreviation step := (successor (StateSet := StateSet) call).
Local Abbreviation reach := (reachable (StateSet := StateSet) call).
Local Abbreviation state := (Explorer Fn StateSet TransitionSet).

(** *** The loop body *)

Lemma add_transitions_spec (item : GlobalState Fn) (l : list (GlobalState Fn))
    (acc : TransitionSet) (tr : Transition Fn) :
  tr ∈ foldl (λ acc i, {[ MkTransition item i ]} ∪ acc) acc l ↔
  tr ∈ acc ∨ ∃ i, i ∈ l ∧ tr = MkTransition item i.
Proof.
  revert acc. induction l as [|x l IH]; intros acc; simpl.
  - split; [auto|]. intros [?|(i & Hi & _)]; [done|]. by apply elem_of_nil in Hi.
  - rewrite IH, elem_of_union, elem_of_singleton. split.
    + intros [[->|?]|(i & Hi & ->)]; [right|by left|right].
      * exists x. split; [by left|done].
      * exists i. split; [by right|done].
    + intros [?|(i & Hi & ->)]; [by left; right|].
      apply elem_of_cons in Hi as [->|Hi]; [by left; left|].
      right. by exists i.
Qed.

Lemma main_body_spec (st st' : state) (item : GlobalState Fn)
    (rest : list (GlobalState Fn)) :
  main_body call st item rest = Ok st' →
  ∃ new_states : StateSet,
    run item = Ok new_states ∧
    (∀ c, c ∈ used st' ↔ c ∈ used st ∨ c ∈ new_states) ∧
    (∀ c, c ∈ queue st' ↔ c ∈ rest ∨ (c ∈ new_states ∧ c ∉ used st)) ∧
    (∀ tr, tr ∈ transitions st' ↔
       tr ∈ transitions st ∨ ∃ i, i ∈ new_states ∧ tr = MkTransition item i).
Proof.
  unfold main_body. destruct (run item) as [new_states|] eqn:Hrun; simpl; [|done].
  intros [= <-]; simpl. exists new_states. split; [done|]. split; [|split].
  - intros c. rewrite elem_of_union, elem_of_difference.
    destruct (elem_of_dec_slow c (used st)); tauto.
  - intros c. by rewrite elem_of_app, elem_of_elements, elem_of_difference.
  - intros tr. rewrite add_transitions_spec.
    by setoid_rewrite elem_of_elements.
Qed.

(** *** The loop *)

Lemma main_loop_invariant (P : state → Prop) :
  (∀ st st' item rest, queue st = item :: rest → P st →
     main_body call st item rest = Ok st' → P st') →
  ∀ fuel st st', P st → main_loop call fuel st = Finished st' →
    P st' ∧ queue st' = [].
Proof.
  intros Hbody fuel. induction fuel as [|fuel IH]; intros st st' HP; simpl.
  - destruct (queue st) eqn:Hq; [|done]. by intros [= <-].
  - destruct (queue st) as [|item rest] eqn:Hq; [by intros [= <-]|].
    destruct (main_body call st item rest) as [st1|] eqn:Hb; [|done].
    apply IH. by eapply Hbody.
Qed.

Lemma consistent_init (initial : GlobalState Fn) :
  consistent call initial (main_init initial : state).
Proof.
  split; simpl.
  - intros c [->|Hc]; [left; by left|]. by apply not_elem_of_empty in Hc.
  - intros c Hc. apply list_elem_of_singleton in Hc. by left.
  - intros tr Htr. by apply not_elem_of_empty in Htr.
  - intros c Hc. by apply not_elem_of_empty in Hc.
Qed.

Lemma consistent_body (initial : GlobalState Fn) (st st' : state)
    (item : GlobalState Fn) (rest : list (GlobalState Fn)) :
  queue st = item :: rest → consistent call initial st →
  main_body call st item rest = Ok st' → consistent call initial st'.
Proof.
  intros Hq [Hexp Hknown Htr Hreach] Hb.
  apply main_body_spec in Hb as (new_states & Hrun & Hused & Hqueue & Htrans).
  assert (Hitem : reach initial item).
  { destruct (Hknown item) as [->|?]; [rewrite Hq; by left|apply rtc_refl|by apply Hreach]. }
  assert (Hold : ∀ c, c = initial ∨ c ∈ used st →
    c ∈ queue st' ∨ ∃ S, run c = Ok S ∧ ∀ c', c' ∈ S → c' ∈ used st').
  { intros c Hc. destruct (Hexp c Hc) as [Hin|(S & HS & Hsub)].
    - rewrite Hq in Hin. apply elem_of_cons in Hin as [->|Hin].
      + right. exists new_states. split; [done|]. intros c' Hc'.
        apply Hused. by right.
      + left. apply Hqueue. by left.
    - right. exists S. split; [done|]. intros c' Hc'. apply Hused. left. auto. }
  split.
  - intros c [->|Hc]; [apply Hold; by left|].
    apply Hused in Hc. destruct (elem_of_dec_slow c (used st)) as [Hin|Hnin].
    + apply Hold. by right.
    + destruct Hc as [?|Hc]; [done|]. left. apply Hqueue. by right.
  - intros c Hc. apply Hqueue in Hc as [Hc|[Hc _]].
    + destruct (Hknown c) as [?|?]; [rewrite Hq; by right|by left|].
      right. apply Hused. by left.
    + right. apply Hused. by right.
  - intros tr Hin. apply Htrans in Hin as [Hin|(i & Hi & ->)]; simpl.
    + destruct (Htr tr Hin) as (? & ? & Hs). split; [done|]. split.
      * apply Hused. by left.
      * destruct Hs; [by left|]. right. apply Hused. by left.
    + split; [by exists new_states|]. split; [apply Hused; by right|].
      destruct (Hknown item) as [?|?]; [rewrite Hq; by left|by left|].
      right. apply Hused. by left.
  - intros c Hc. apply Hused in Hc as [Hc|Hc]; [by apply Hreach|].
    eapply rtc_r; [exact Hitem|]. by exists new_states.
Qed.

Lemma explore_consistent (fuel : nat) (initial : GlobalState Fn) (st : state) :
  explore call fuel initial = Finished st →
  consistent call initial st ∧ queue st = [].
Proof.
  apply (main_loop_invariant (consistent call initial)).
  - intros st0 st1 item rest. apply consistent_body.
  - apply consistent_init.
Qed.

(** Every state that steps lead to from [initial] is found. *)
Lemma explore_complete (fuel : nat) (initial : GlobalState Fn) (st : state) :
  explore call fuel initial = Finished st →
  ∀ c, reach initial c → c = initial ∨ c ∈ used st.
Proof.
  intros Hrun. destruct (explore_consistent _ _ _ Hrun) as [[Hexp _ _ _] Hq].
  apply (rtc_ind_r (λ c, c = initial ∨ c ∈ used st)); [by left|].
  intros c c' _ (S & HS & Hin) IH.
  right. destruct (Hexp c IH) as [Hc'|(S' & HS' & Hsub)].
  - rewrite Hq in Hc'. by apply elem_of_nil in Hc'.
  - apply Hsub. congruence.
Qed.

(** The endpoints of the recorded transitions: the end was found, and the
    start was found or is the state the run began with. *)
Lemma transitions_endpoints (fuel : nat) (initial : GlobalState Fn) (st : state) :
  explore call fuel initial = Finished st →
  ∀ tr, tr ∈ transitions st →
    step (start tr) (end_ tr) ∧ end_ tr ∈ used st ∧
    (start tr = initial ∨ start tr ∈ used st).
Proof.
  intros Hrun. destruct (explore_consistent _ _ _ Hrun) as [[_ _ Hsound _] _].
  exact Hsound.
Qed.

(** The final [used] holds only states that steps lead to from [initial]. *)
Lemma explore_sound (fuel : nat) (initial : GlobalState Fn) (st : state) :
  explore call fuel initial = Finished st →
  ∀ c, c ∈ used st → reach initial c.
Proof.
  intros Hrun. destruct (explore_consistent _ _ _ Hrun) as [[_ _ _ Hreach] _].
  exact Hreach.
Qed.

(** *** Unfolding the loop by one iteration *)

Lemma main_loop_step (fuel : nat) (st st' : state) (item : GlobalState Fn)
    (rest : list (GlobalState Fn)) :
  queue st = item :: rest → main_body call st item rest = Ok st' →
  main_loop call (S fuel) st = main_loop call fuel st'.
Proof. intros Hq Hb. simpl. by rewrite Hq, Hb. Qed.

Lemma main_loop_abort (fuel : nat) (st : state) (item : GlobalState Fn)
    (rest : list (GlobalState Fn)) (e : exn) :
  queue st = item :: rest → main_body call st item rest = Raise e →
  main_loop call (S fuel) st = Aborted e.
Proof. intros Hq Hb. simpl. by rewrite Hq, Hb. Qed.

(** ** The claims about the loop *)

(** C2. Fix-point closure: when the loop of [main] ends with an empty queue,
    the successor set of every global state in the final [used] can be
    computed and each of its elements is in the final [used] as well. *)
Theorem fixpoint_closure (fuel : nat) (initial : GlobalState Fn) (st : state) :
  explore call fuel initial = Finished st →
  ∀ c, c ∈ used st →
    ∃ S : StateSet, run c = Ok S ∧ ∀ c', c' ∈ S → c' ∈ used st.
Proof.
  intros Hrun c Hc.
  destruct (explore_consistent _ _ _ Hrun) as [[Hexp _ _ _] Hq].
  destruct (Hexp c) as [Hin|?]; [by right| |done].
  rewrite Hq in Hin. by apply elem_of_nil in Hin.
Qed.

(** C6. A global state none of whose threads is running is terminal: its
    successor set is the empty set, and when the loop of [main] ends no
    transition of the final [transitions] starts at it. *)
Theorem terminal_no_successors (c : GlobalState Fn) :
  (∀ t, t ∈ threads c → is_running t = false) →
  run c = Ok ∅ ∧
  ∀ (fuel : nat) (initial : GlobalState Fn) (st : state),
    explore call fuel initial = Finished st →
    ∀ tr, tr ∈ transitions st → start tr ≠ c.
Proof.
  intros Hstop.
  assert (Hrun : run c = Ok ∅).
  { apply run_loop_all_stopped; [done|]. intros i Hi.
    apply elem_of_seq in Hi. lia. }
  split; [done|]. intros fuel initial st Hfin tr Htr Hstart.
  destruct (explore_consistent _ _ _ Hfin) as [[_ _ Hsound _] _].
  destruct (Hsound tr Htr) as [(S & HS & Hin) _].
  rewrite Hstart, Hrun in HS. injection HS as <-. by apply not_elem_of_empty in Hin.
Qed.

End LoopFacts.

(** * The models *)

(** ** The run of [main] *)

Lemma main_checked_true : main_checked = true.
Proof. vm_compute. reflexivity. Qed.

Lemma main_explored :
  ∃ st : ListExplorer Main.fn,
    explore_list Main.call main_fuel Main.initial = Finished st ∧
    ∀ c, c = Main.initial ∨ c ∈ used st → main_state_ok c = true.
Proof.
  pose proof main_checked_true as Hchk. unfold main_checked in Hchk.
  destruct (explore_list Main.call main_fuel Main.initial) as [st| |]; [|done..].
  exists st. split; [done|]. intros c Hc.
  rewrite forallb_forall in Hchk. apply Hchk. apply list_elem_of_In.
  destruct Hc as [->|Hc]; [by left|right]. by apply elem_of_elements.
Qed.

Lemma main_state_ok_spec (c : GlobalState Main.fn) :
  main_state_ok c = true →
  (∀ t, t ∈ threads c →
     current_state t ≠ 0 ∧
     py_index (states t) (current_state t) ≠ Ok Main.nop) ∧
  ∃ S, run_list Main.call c = Ok S.
Proof.
  unfold main_state_ok, no_thread_at_zero, not_at_nop, run_returns.
  rewrite !andb_true_iff, !forallb_forall. intros [[Hz Hn] Hr]. split.
  - intros t Ht. apply list_elem_of_In in Ht. split.
    + specialize (Hz t Ht). apply negb_true_iff, Z.eqb_neq in Hz. done.
    + specialize (Hn t Ht). intros Hnop. by rewrite Hnop in Hn.
  - destruct (run_list Main.call c) as [S|]; [by exists S|done].
Qed.

(** C10. The run of [main] ends with an empty queue, and in every global
    state that steps lead to from the initial one no thread is at program
    counter 0 and no thread's table entry at its program counter is [nop];
    the successor set of every such global state is computed without an
    exception, so the failing unpacking of [nop]'s result never happens. *)
Theorem main_never_at_nop :
  (∃ st : ListExplorer Main.fn,
     explore_list Main.call main_fuel Main.initial = Finished st) ∧
  ∀ c, reachable_list Main.call Main.initial c →
    (∀ t, t ∈ threads c →
       current_state t ≠ 0 ∧
       py_index (states t) (current_state t) ≠ Ok Main.nop) ∧
    ∃ S, run_list Main.call c = Ok S.
Proof.
  destruct main_explored as (st & Hrun & Hok). split; [by exists st|].
  intros c Hc. apply main_state_ok_spec, Hok.
  by apply (explore_complete _ _ _ _ Hrun).
Qed.

(** In [main]'s model the steps of [P] lead back to the initial global
    state, which is how it comes to be in the final [used]. *)
Lemma main_initial_found :
  ∃ st : ListExplorer Main.fn,
    explore_list Main.call main_fuel Main.initial = Finished st ∧
    Main.initial ∈ used st.
Proof.
  assert (Hchk : main_initial_used = true) by (by vm_compute).
  unfold main_initial_used in Hchk.
  destruct (explore_list Main.call main_fuel Main.initial) as [st| |]; [|done..].
  exists st. split; [done|].
  apply bool_decide_eq_true in Hchk. by apply elem_of_elements.
Qed.

(** ** Scenario A *)

Lemma scenario_A_aborts (fuel : nat) :
  explore_list ScenarioA.call (S (S fuel)) ScenarioA.initial = Aborted IndexError.
Proof.
  set (c1 := ScenarioA.at_pc ScenarioA.table ScenarioA.x1 1).
  set (st1 := MkExplorer {[ c1 ]} [c1] {[ MkTransition ScenarioA.initial c1 ]}
              : ListExplorer ScenarioA.fn).
  unfold explore.
  rewrite (main_loop_step _ _ _ st1 ScenarioA.initial []);
    [|reflexivity|vm_compute; reflexivity].
  apply (main_loop_abort _ _ st1 c1 []); [reflexivity|vm_compute; reflexivity].
Qed.

Lemma scenario_A_never_finishes (fuel : nat) (st : ListExplorer ScenarioA.fn) :
  explore_list ScenarioA.call fuel ScenarioA.initial ≠ Finished st.
Proof.
  destruct fuel as [|[|fuel]]; [done|by vm_compute|].
  by rewrite scenario_A_aborts.
Qed.

(** C7, the claim as stated fails: on scenario A the run ends with
    [IndexError] and never with final sets, so there is no final [used] of
    two global states and no final [transitions] of two transitions. *)
Lemma scenario_A_no_result :
  explore_list ScenarioA.call 2 ScenarioA.initial = Aborted IndexError ∧
  ∀ (fuel : nat) (st : ListExplorer ScenarioA.fn),
    explore_list ScenarioA.call fuel ScenarioA.initial = Finished st →
    ¬ (size (used st) = 2%nat ∧ size (transitions st) = 2%nat).
Proof.
  split; [apply (scenario_A_aborts 0)|].
  intros fuel st Hrun. by apply scenario_A_never_finishes in Hrun.
Qed.

(** C7, as amended.  On scenario A the first pass through the loop body
    finds the global state with [x = 1] at program counter 1, records the
    transition to it and puts it in the queue; computing its successors
    raises [IndexError], because the one-entry table has no entry 1, and
    the run of [main] ends with that exception whenever it is given at
    least two passes. *)
Theorem scenario_A_index_error :
  (∃ st1 : ListExplorer ScenarioA.fn,
     main_body ScenarioA.call (main_init ScenarioA.initial) ScenarioA.initial []
       = Ok st1 ∧
     queue st1 = [ScenarioA.at_pc ScenarioA.table ScenarioA.x1 1] ∧
     elements (transitions st1) =
       [MkTransition ScenarioA.initial
          (ScenarioA.at_pc ScenarioA.table ScenarioA.x1 1)]) ∧
  run_list ScenarioA.call (ScenarioA.at_pc ScenarioA.table ScenarioA.x1 1)
    = Raise IndexError ∧
  ∀ fuel : nat,
    explore_list ScenarioA.call (S (S fuel)) ScenarioA.initial = Aborted IndexError.
Proof.
  split; [|split].
  - eexists. split; [vm_compute; reflexivity|]. split; vm_compute; reflexivity.
  - vm_compute; reflexivity.
  - apply scenario_A_aborts.
Qed.

(** ** Scenario A with the two-entry table *)

(** C1, the code at the failing input.  [main] enters the loop with an empty
    [used]; with the two-entry table of scenario A the run ends after two
    passes and the initial global state is not in the final [used], whose
    only element is the global state at program counter 1. *)
Theorem initial_never_marked_used :
  elements (used (main_init ScenarioA.initial_loop : ListExplorer ScenarioA.fn))
    = [] ∧
  ∃ st : ListExplorer ScenarioA.fn,
    explore_list ScenarioA.call 2 ScenarioA.initial_loop = Finished st ∧
    (ScenarioA.initial_loop ∉ used st) ∧
    (elements (used st) = [ScenarioA.at_pc ScenarioA.table_loop ScenarioA.x1 1]).
Proof.
  split; [by vm_compute|].
  assert (Hchk : loop_initial_used = false) by (by vm_compute).
  assert (Hel : match explore_list ScenarioA.call 2 ScenarioA.initial_loop with
                | Finished st => elements (used st)
                | _ => []
                end = [ScenarioA.at_pc ScenarioA.table_loop ScenarioA.x1 1])
    by (by vm_compute).
  unfold loop_initial_used in Hchk.
  destruct (explore_list ScenarioA.call 2 ScenarioA.initial_loop) as [st| |];
    [|done..].
  exists st. split; [done|]. split; [|done].
  apply bool_decide_eq_false in Hchk. by rewrite <- elem_of_elements.
Qed.

(** C4, the code at the failing input.  With the two-entry table of
    scenario A the final [transitions] holds the transition out of the
    initial global state, and the start of that transition is not in the
    final [used]. *)
Theorem transition_start_not_used :
  ∃ st : ListExplorer ScenarioA.fn,
    explore_list ScenarioA.call 2 ScenarioA.initial_loop = Finished st ∧
    loop_first_transition ∈ transitions st ∧
    start loop_first_transition ∉ used st.
Proof.
  assert (Hchk : loop_initial_used = false) by (by vm_compute).
  assert (Htr : loop_first_transition_recorded = true) by (by vm_compute).
  unfold loop_initial_used in Hchk. unfold loop_first_transition_recorded in Htr.
  destruct (explore_list ScenarioA.call 2 ScenarioA.initial_loop) as [st| |];
    [|done..].
  exists st. split; [done|]. split.
  - apply bool_decide_eq_true in Htr. by apply elem_of_elements.
  - apply bool_decide_eq_false in Hchk. by rewrite <- elem_of_elements.
Qed.

(** ** The general theorems on the models *)



(** C2 on the run of [main]. *)
Lemma fixpoint_closure_main :
  ∃ st : ListExplorer Main.fn,
    explore_list Main.call main_fuel Main.initial = Finished st ∧
    ∀ c, c ∈ used st →
      ∃ S, run_list Main.call c = Ok S ∧ ∀ c', c' ∈ S → c' ∈ used st.
Proof.
  assert (Hfin : finishes (explore_list Main.call main_fuel Main.initial) = true)
    by (vm_compute; reflexivity).
  destruct (explore_list Main.call main_fuel Main.initial) as [st| |] eqn:Hrun;
    [|discriminate Hfin..].
  exists st. split; [reflexivity|].
  exact (fixpoint_closure Main.call main_fuel Main.initial st Hrun).
Defined.

(** C3 on the initial global state of [main]. *)
Lemma GlobalState_run_exact_main :
  ∃ S, run_list Main.call Main.initial = Ok S ∧
       ∀ c', c' ∈ S ↔ candidate Main.call Main.initial c'.
Proof.
  destruct (GlobalState_run_exact (StateSet := listset _) Main.call Main.initial)
    as [Hexact _].
  assert (Hret : run_returns Main.initial = true) by (vm_compute; reflexivity).
  unfold run_returns in Hret.
  destruct (run_list Main.call Main.initial) as [S|] eqn:Hrun;
    [|discriminate Hret].
  exists S. split; [reflexivity|]. exact (Hexact S eq_refl).
Defined.

(** C6 on the blocking thread: the run ends, and none of its transitions
    starts at the global state in which the thread has stopped. *)
Lemma terminal_no_successors_blocking :
  run_list Blocking.call Blocking.stopped = Ok ∅ ∧
  ∃ st : ListExplorer Blocking.fn,
    explore_list Blocking.call 2 Blocking.initial = Finished st ∧
    ∀ tr, tr ∈ transitions st → start tr ≠ Blocking.stopped.
Proof.
  destruct (terminal_no_successors (StateSet := listset _)
              (TransitionSet := listset _) Blocking.call Blocking.stopped)
    as [Hempty Hleaf].
  { intros t Ht. apply list_elem_of_singleton in Ht. rewrite Ht. reflexivity. }
  split; [exact Hempty|].
  assert (Hfin : finishes (explore_list Blocking.call 2 Blocking.initial) = true)
    by (vm_compute; reflexivity).
  destruct (explore_list Blocking.call 2 Blocking.initial) as [st| |] eqn:Hrun;
    [|discriminate Hfin..].
  exists st. split; [reflexivity|]. exact (Hleaf 2%nat Blocking.initial st Hrun).
Defined.

(** C9 on [main]'s model: after [Q] has stopped, a step of [P] leaves it
    stopped. *)
Lemma stopped_thread_main :
  threads Main.blocked_next !! 1%nat = Some Main.Q_stopped ∧
  is_running Main.Q_stopped = false.
Proof.
  apply (stopped_thread_stays_stopped (StateSet := listset _) Main.call
           Main.blocked Main.blocked_next 1 Main.Q_stopped);
    [|reflexivity|reflexivity].
  apply rtc_once. exists {[ Main.blocked_next ]}. split.
  - vm_compute. reflexivity.
  - apply elem_of_singleton. reflexivity.
Defined.

(** C5, as amended, on the models: the stopped thread of scenario A takes
    its step, which even sets the running flag again; and in [main]'s model
    the successors of the global state in which [Q] has stopped are the same
    when the entries of [Q] raise. *)
Lemma Thread_run_stopped_at_zero :
  Thread_run ScenarioA.call stopped_at_zero ScenarioA.x0 =
    Ok (MkThread (MkMemory ∅) ScenarioA.table "P" 1 true, ScenarioA.x1) ∧
  run_list Main.call Main.blocked = run_list Main.call_Q_raising Main.blocked.
Proof.
  split.
  - apply (proj1 (proj2 (Thread_run_no_precondition (StateSet := listset _)
             ScenarioA.call ScenarioA.call))
             stopped_at_zero ScenarioA.x0 ScenarioA.set_x ScenarioA.x1
             (MkMemory ∅) 1 true).
    + reflexivity.
    + vm_compute. reflexivity.
  - apply (proj2 (proj2 (proj2 (Thread_run_no_precondition
             (StateSet := listset _) Main.call Main.call_Q_raising)))
             Main.blocked).
    intros [|[|i]] t Ht Hrun; simpl in Ht.
    + injection Ht as <-. vm_compute. reflexivity.
    + injection Ht as <-. discriminate Hrun.
    + discriminate Ht.
Defined.

(** C5, the claim as stated fails: [Thread.run] on a thread whose running
    flag is false does not fail, it returns the updated thread. *)
Lemma Thread_run_on_stopped_thread :
  is_running (Blocking.thread 0 false) = false ∧
  Thread_run Blocking.call (Blocking.thread 0 false) (MkMemory ∅) =
    Ok (Blocking.thread 1 false, MkMemory ∅).
Proof. split; reflexivity. Qed.


(** * Further properties of [Memory] *)

Section MemoryAlgebra.

Implicit Types (m : Memory) (kw : gmap string Z).

Lemma Memory_set_then m kw1 kw2 :
  (m1 ← Memory_set m kw1; Memory_set m1 kw2) =
    match (kw2 ∪ kw1) !! "self" with
    | Some _ => Raise TypeError
    | None => Ok (MkMemory (kw2 ∪ kw1 ∪ vars m))
    end.
Proof.
  rewrite union_lookup_cases, (Memory_set_cases m kw1).
  destruct (kw1 !! "self") as [v1|] eqn:H1; simpl.
  - by destruct (kw2 !! "self").
  - rewrite Memory_set_cases; simpl.
    destruct (kw2 !! "self"); [done|]. by rewrite (assoc_L (∪)).
Qed.

(** X1. Two calls of [Memory.set] in a row, the second on the result of the
    first, do what one call with both assignments does, the later assignment
    winning on a key they share: the same [Memory] is returned, or
    [TypeError] is raised in both cases (when one of the two has the keyword
    [self]). *)
Theorem Memory_set_twice m kw1 kw2 :
  (m1 ← Memory_set m kw1; Memory_set m1 kw2) = Memory_set m (kw2 ∪ kw1).
Proof. by rewrite Memory_set_then, Memory_set_cases. Qed.

(** X2. Assigning to variables the values they already have returns a
    [Memory] equal to the receiver: when no keyword is named [self] and every
    item of [kwargs] is an item of the receiver's dictionary, the call
    returns the receiver's value. *)
Theorem Memory_set_same_values m kw :
  kw !! "self" = None → kw ⊆ vars m → Memory_set m kw = Ok m.
Proof.
  intros Hself Hsub. rewrite Memory_set_cases, Hself.
  destruct m as [d]; simpl in *. do 2 f_equal. by apply map_subseteq_union.
Qed.

(** X3. Assignments to different variables commute: when [kw1] and [kw2]
    have no key in common, calling [Memory.set] with [kw1] and then with
    [kw2] does what calling it with [kw2] and then with [kw1] does (the same
    [Memory] returned, or [TypeError] raised both ways). *)
Theorem Memory_set_commute m kw1 kw2 :
  kw1 ##ₘ kw2 →
  (m1 ← Memory_set m kw1; Memory_set m1 kw2) =
  (m2 ← Memory_set m kw2; Memory_set m2 kw1).
Proof.
  intros Hdisj. by rewrite !Memory_set_then, (map_union_comm kw1 kw2).
Qed.

End MemoryAlgebra.

(** * Further properties of [Thread.run] *)

Section ThreadEdges.

Context {Fn : Type}.
Variable call : Fn → Memory → Memory → PyTuple.

Lemma py_index_in_range {A : Type} (l : list A) (i : Z) :
  - Z.of_nat (length l) ≤ i < Z.of_nat (length l) → ∃ x, py_index l i = Ok x.
Proof.
  intros Hi. unfold py_index. rewrite bool_decide_eq_true_2.
  - destruct (lookup_lt_is_Some_2 l
                (Z.to_nat (if bool_decide (i < 0) then i + Z.of_nat (length l) else i)))
      as [x ->]; [case_bool_decide; lia|]. by exists x.
  - case_bool_decide; lia.
Qed.

Lemma py_index_raises {A : Type} (l : list A) (i : Z) (e : exn) :
  py_index l i = Raise e ↔
  e = IndexError ∧ ¬ (- Z.of_nat (length l) ≤ i < Z.of_nat (length l)).
Proof.
  split.
  - intros Hr. destruct (decide (- Z.of_nat (length l) ≤ i < Z.of_nat (length l)))
      as [Hi|Hi].
    + destruct (py_index_in_range l i Hi) as [x Hx]. congruence.
    + split; [|done]. unfold py_index in Hr.
      case_bool_decide; [|congruence].
      destruct (l !! _); congruence.
  - intros [-> Hi]. unfold py_index.
    rewrite bool_decide_eq_false_2; [done|]. case_bool_decide; lia.
Qed.

Lemma py_index_negative {A : Type} (l : list A) (i : Z) :
  - Z.of_nat (length l) ≤ i < 0 →
  py_index l i = py_index l (i + Z.of_nat (length l)).
Proof.
  intros Hi. unfold py_index.
  rewrite (bool_decide_eq_true_2 (i < 0)) by lia.
  by rewrite (bool_decide_eq_false_2 (i + Z.of_nat (length l) < 0)) by lia.
Qed.

(** X4. The error behaviour of [Thread.run] that does not depend on what
    the table entries are: it raises [IndexError] whenever the program
    counter is outside the table, that is below minus its length or not
    below its length; when the entry at the program counter returns a
    three-component tuple it raises [ValueError]; when that entry raises, the
    same exception comes out; and when [Thread.run] returns, the program
    counter was inside the table. *)
Theorem Thread_run_raises (t : Thread Fn) (shared : Memory) :
  (¬ (- Z.of_nat (length (states t)) ≤ current_state t
        < Z.of_nat (length (states t))) →
   Thread_run call t shared = Raise IndexError) ∧
  (∀ f s l c, py_index (states t) (current_state t) = Ok f →
     call f shared (local_memory t) = Tuple3 s l c →
     Thread_run call t shared = Raise ValueError) ∧
  (∀ f e, py_index (states t) (current_state t) = Ok f →
     call f shared (local_memory t) = Raised e →
     Thread_run call t shared = Raise e) ∧
  (∀ r, Thread_run call t shared = Ok r →
     - Z.of_nat (length (states t)) ≤ current_state t
       < Z.of_nat (length (states t))).
Proof.
  unfold Thread_run. split; [|split; [|split]].
  - intros Hpc.
    assert (py_index (states t) (current_state t) = Raise IndexError) as ->
      by by apply py_index_raises.
    done.
  - intros f s l c Hf Hc. rewrite Hf; simpl. by rewrite Hc.
  - intros f e Hf Hc. rewrite Hf; simpl. by rewrite Hc.
  - intros r Hr.
    destruct (decide (- Z.of_nat (length (states t)) ≤ current_state t
                        < Z.of_nat (length (states t)))) as [Hpc|Hpc]; [done|].
    assert (py_index (states t) (current_state t) = Raise IndexError) as Hi
      by by apply py_index_raises.
    by rewrite Hi in Hr.
Qed.

(** X5. A negative program counter counts from the end of the table: with a
    program counter [pc] from minus the length of the table up to -1,
    [Thread.run] does what it does with the program counter [pc + len]. *)
Theorem Thread_run_negative_pc (local : Memory) (table : list Fn)
    (name : string) (pc : Z) (running : bool) (shared : Memory) :
  - Z.of_nat (length table) ≤ pc < 0 →
  Thread_run call (MkThread local table name pc running) shared =
  Thread_run call
    (MkThread local table name (pc + Z.of_nat (length table)) running) shared.
Proof.
  intros Hpc. unfold Thread_run; simpl. by rewrite (py_index_negative _ pc).
Qed.

End ThreadEdges.

(** * Further properties of [GlobalState.run] *)

Section SuccessorEdges.

Context {Fn : Type} `{EqDecision Fn}.
Variable call : Fn → Memory → Memory → PyTuple.

Context {StateSet : Type}
  `{ElemOf (GlobalState Fn) StateSet, Empty StateSet,
    Singleton (GlobalState Fn) StateSet,
    Union StateSet, Intersection StateSet, Difference StateSet,
    Elements (GlobalState Fn) StateSet}
  `{!FinSet (GlobalState Fn) StateSet}.

Local Abbreviation run := (GlobalState_run (StateSet := StateSet) call).
Local Abbreviation step := (successor (StateSet := StateSet) call).
Local Abbreviation reach := (reachable (StateSet := StateSet) call).

Lemma Thread_run_keeps (t t' : Thread Fn) (shared shared' : Memory) :
  Thread_run call t shared = Ok (t', shared') →
  name t' = name t ∧ states t' = states t.
Proof.
  unfold Thread_run. destruct (py_index _ _) as [f|]; simpl; [|done].
  destruct (call f shared (local_memory t)); simpl; [|done..].
  by intros [= <- _].
Qed.

Lemma successor_same_processes (c c' : GlobalState Fn) :
  step c c' →
  name <$> threads c' = name <$> threads c ∧
  states <$> threads c' = states <$> threads c.
Proof.
  intros (S & HS & Hin).
  apply (GlobalState_run_spec _ _ _ HS) in Hin
    as (i & t & t' & sh & Ht & _ & Hstep & ->); simpl.
  apply Thread_run_keeps in Hstep as [Hname Hstates].
  rewrite !list_fmap_insert, Hname, Hstates.
  split; apply list_insert_id; by rewrite list_lookup_fmap, Ht.
Qed.

(** X6. An index denotes the same process in every global state that steps
    lead to: the names and the tables of the threads, read in order, are the
    same as in the global state the steps start from (so the number of
    threads is the same too). *)
Theorem reachable_same_processes (c c' : GlobalState Fn) :
  reach c c' →
  name <$> threads c' = name <$> threads c ∧
  states <$> threads c' = states <$> threads c.
Proof.
  intros Hreach. induction Hreach as [|c c1 c' Hstep _ [IHn IHs]]; [done|].
  apply successor_same_processes in Hstep as [Hn Hs].
  split; congruence.
Qed.

Lemma run_loop_size (self : GlobalState Fn) (a n : nat) (result S : StateSet) :
  (a + n)%nat = length (threads self) →
  run_loop call self (seq a n) result = Ok S →
  (size S ≤
     size result +
     length (filter (λ t, is_running t = true) (drop a (threads self))))%nat.
Proof.
  revert a result. induction n as [|n IH]; intros a result Hlen; simpl.
  - intros [= <-]. lia.
  - rewrite py_index_nat.
    destruct (lookup_lt_is_Some_2 (threads self) a) as [thread Hth]; [lia|].
    rewrite Hth, (drop_S _ _ _ Hth); simpl.
    destruct (is_running thread) eqn:Hrun; simpl.
    + destruct (Thread_run call thread (shared_memory self))
        as [[new_state sh]|]; simpl; [|done].
      intros HS. apply IH in HS; [|lia].
      rewrite filter_cons_True by done; simpl.
      rewrite size_union_alt, size_singleton in HS.
      assert (Hle : (size (result ∖ {[MkGlobalState sh
                (<[a:=new_state]> (threads self))]}) ≤ size result)%nat)
        by (apply subseteq_size; intros x Hx;
            by apply elem_of_difference in Hx as [? _]).
      lia.
    + intros HS. apply IH in HS; [|lia].
      rewrite filter_cons_False by congruence. done.
Qed.

(** X7. [GlobalState.run] returns at most one global state for each thread
    that is running: the size of the returned set is at most the number of
    threads whose running flag is true. *)
Theorem GlobalState_run_size (self : GlobalState Fn) (S : StateSet) :
  run self = Ok S →
  (size S ≤ length (filter (λ t, is_running t = true) (threads self)))%nat.
Proof.
  intros HS. apply run_loop_size in HS; [|done].
  rewrite size_empty in HS. done.
Qed.

Lemma run_loop_raises (self : GlobalState Fn) (a n : nat) (result : StateSet)
    (e : exn) :
  (a + n ≤ length (threads self))%nat →
  run_loop call self (seq a n) result = Raise e ↔
  ∃ (i : nat) (thread : Thread Fn),
    (a ≤ i < a + n)%nat ∧
    threads self !! i = Some thread ∧ is_running thread = true ∧
    Thread_run call thread (shared_memory self) = Raise e ∧
    ∀ (j : nat) (t : Thread Fn),
      (a ≤ j < i)%nat → threads self !! j = Some t → is_running t = true →
      ∃ r, Thread_run call t (shared_memory self) = Ok r.
Proof.
  revert a result. induction n as [|n IH]; intros a result Hlen; simpl.
  - split; [done|]. intros (i & _ & ? & _); lia.
  - rewrite py_index_nat.
    destruct (lookup_lt_is_Some_2 (threads self) a) as [thread Hth]; [lia|].
    rewrite Hth; simpl.
    destruct (is_running thread) eqn:Hrun; simpl.
    + destruct (Thread_run call thread (shared_memory self))
        as [[new_state sh]|e'] eqn:Hstep; simpl.
      * rewrite IH by lia. split.
        -- intros (i & t & Hi & Ht & Hr & He & Hlow).
           exists i, t. split; [lia|]. do 3 (split; [done|]).
           intros j tj Hj Htj Hrj. destruct (decide (j = a)) as [->|Hne].
           ++ assert (tj = thread) as -> by congruence. by eexists.
           ++ apply (Hlow j tj); [lia|done..].
        -- intros (i & t & Hi & Ht & Hr & He & Hlow).
           assert (i ≠ a) by (intros ->; congruence).
           exists i, t. split; [lia|]. do 3 (split; [done|]).
           intros j tj Hj. apply Hlow. lia.
      * split.
        -- intros [= <-]. exists a, thread. split; [lia|].
           do 3 (split; [done|]). intros j tj Hj. lia.
        -- intros (i & t & Hi & Ht & Hr & He & Hlow).
           destruct (decide (i = a)) as [->|Hne]; [congruence|].
           destruct (Hlow a thread) as [r Hr']; [lia|done..|congruence].
    + rewrite IH by lia. split.
      * intros (i & t & Hi & Ht & Hr & He & Hlow).
        exists i, t. split; [lia|]. do 3 (split; [done|]).
        intros j tj Hj Htj Hrj. destruct (decide (j = a)) as [->|Hne].
        -- congruence.
        -- apply (Hlow j tj); [lia|done..].
      * intros (i & t & Hi & Ht & Hr & He & Hlow).
        assert (i ≠ a) by (intros ->; congruence).
        exists i, t. split; [lia|]. do 3 (split; [done|]).
        intros j tj Hj. apply Hlow. lia.
Qed.

(** X8. [GlobalState.run] raises [e] exactly when the step of some running
    thread raises [e] and the step of every running thread at a lower index
    returns: the exception is that of the first running thread whose step
    fails, and a thread that is not running never makes the call fail. *)
Theorem GlobalState_run_raises (self : GlobalState Fn) (e : exn) :
  run self = Raise e ↔
  ∃ (i : nat) (thread : Thread Fn),
    threads self !! i = Some thread ∧ is_running thread = true ∧
    Thread_run call thread (shared_memory self) = Raise e ∧
    ∀ (j : nat) (t : Thread Fn),
      (j < i)%nat → threads self !! j = Some t → is_running t = true →
      ∃ r, Thread_run call t (shared_memory self) = Ok r.
Proof.
  unfold GlobalState_run. rewrite run_loop_raises by done. split.
  - intros (i & t & Hi & Ht & Hr & He & Hlow). exists i, t.
    do 3 (split; [done|]). intros j tj Hj. apply Hlow. lia.
  - intros (i & t & Ht & Hr & He & Hlow). exists i, t.
    split; [apply lookup_lt_Some in Ht; lia|]. do 3 (split; [done|]).
    intros j tj Hj. apply Hlow. lia.
Qed.

Lemma run_loop_Ok_steps (self : GlobalState Fn) (idx : list nat)
    (result S : StateSet) :
  run_loop call self idx result = Ok S →
  ∀ (i : nat) (t : Thread Fn),
    i ∈ idx → threads self !! i = Some t → is_running t = true →
    ∃ r, Thread_run call t (shared_memory self) = Ok r.
Proof.
  revert result. induction idx as [|a idx IH]; intros result; simpl.
  - intros _ i t Hi. by apply elem_of_nil in Hi.
  - rewrite py_index_nat.
    destruct (threads self !! a) as [thread|] eqn:Hth; simpl; [|done].
    destruct (is_running thread) eqn:Hrun; simpl.
    + destruct (Thread_run call thread (shared_memory self))
        as [[new_state sh]|] eqn:Hstep; simpl; [|done].
      intros HS i t Hi Ht Hr. apply elem_of_cons in Hi as [->|Hi].
      * assert (t = thread) as -> by congruence. by eexists.
      * by eapply IH.
    + intros HS i t Hi Ht Hr. apply elem_of_cons in Hi as [->|Hi].
      * congruence.
      * by eapply IH.
Qed.

(** A step, said without the set that [GlobalState.run] returns. *)
Lemma successor_alt (c c' : GlobalState Fn) :
  step c c' ↔ steps_ok call c ∧ candidate call c c'.
Proof.
  split.
  - intros (S & HS & Hin). split.
    + intros i t Ht Hr. eapply run_loop_Ok_steps; [exact HS| |done..].
      apply elem_of_seq. apply lookup_lt_Some in Ht. lia.
    + by apply (GlobalState_run_spec _ _ _ HS).
  - intros [Hok Hc].
    destruct (GlobalState_run_returns (StateSet := StateSet) call c Hok) as [S HS].
    exists S. split; [done|]. by apply (GlobalState_run_spec _ _ _ HS).
Qed.

End SuccessorEdges.

(** * Further properties of the loop of [main] *)

Section LoopEdges.

Context {Fn : Type} `{EqDecision Fn}.
Variable call : Fn → Memory → Memory → PyTuple.

Context {StateSet : Type}
  `{ElemOf (GlobalState Fn) StateSet, Empty StateSet,
    Singleton (GlobalState Fn) StateSet,
    Union StateSet, Intersection StateSet, Difference StateSet,
    Elements (GlobalState Fn) StateSet}
  `{!FinSet (GlobalState Fn) StateSet}.

Context {TransitionSet : Type}
  `{ElemOf (Transition Fn) TransitionSet, Empty TransitionSet,
    Singleton (Transition Fn) TransitionSet, Union TransitionSet,
    Intersection TransitionSet, Difference TransitionSet,
    Elements (Transition Fn) TransitionSet}
  `{!FinSet (Transition Fn) TransitionSet}.

Local Abbreviation run := (GlobalState_run (StateSet := StateSet) call).
Local Abbreviation step := (successor (StateSet := StateSet) call).
Local Abbreviation reach := (reachable (StateSet := StateSet) call).
Local Abbreviation state := (Explorer Fn StateSet TransitionSet).
Local Abbreviation body_spec :=
  (main_body_spec call (StateSet := StateSet) (TransitionSet := TransitionSet)).
Local Abbreviation end_consistent :=
  (explore_consistent call (StateSet := StateSet)
     (TransitionSet := TransitionSet)).

(** *** Which states and transitions the run ends with *)

(** Every state in [used] or in the queue was reached by at least one step,
    but for the initial state at the head of the first queue. *)
Lemma used_after_step (fuel : nat) (initial : GlobalState Fn) (st : state) :
  explore call fuel initial = Finished st →
  ∀ c, c ∈ used st → tc step initial c.
Proof.
  set (P := λ st : state,
    (∀ c, c ∈ used st → tc step initial c) ∧
    (∀ c, c ∈ queue st → c = initial ∨ tc step initial c)).
  assert (Hbody : ∀ (st0 st1 : state) item rest, queue st0 = item :: rest →
            P st0 → main_body call st0 item rest = Ok st1 → P st1).
  { intros st0 st1 item rest Hq [Hu Hk] Hb.
    apply body_spec in Hb as (new_states & Hr & Hused & Hqueue & _).
    assert (Hnew : ∀ c, c ∈ new_states → tc step initial c).
    { intros c Hc. assert (Hs : step item c) by by exists new_states.
      destruct (Hk item) as [->|Hitem]; [rewrite Hq; by left|by apply tc_once|].
      by eapply tc_r. }
    split.
    - intros c Hc. apply Hused in Hc as [?|?]; auto.
    - intros c Hc. apply Hqueue in Hc as [Hc|[Hc _]]; [|right; auto].
      apply Hk. rewrite Hq. by right. }
  assert (Hinit : P (main_init initial)).
  { split; simpl.
    - intros c Hc. by apply not_elem_of_empty in Hc.
    - intros c Hc. apply list_elem_of_singleton in Hc. by left. }
  intros Hrun.
  by destruct (main_loop_invariant call P Hbody fuel _ st Hinit Hrun) as [[? _] _].
Qed.

Lemma step_found (fuel : nat) (initial : GlobalState Fn) (st : state) :
  explore call fuel initial = Finished st →
  ∀ c c', c = initial ∨ c ∈ used st → step c c' → c' ∈ used st.
Proof.
  intros Hrun c c' Hc (S & HS & Hin).
  destruct (end_consistent _ _ _ Hrun) as [[Hexp _ _ _] Hq].
  destruct (Hexp c Hc) as [Hc'|(S' & HS' & Hsub)].
  - rewrite Hq in Hc'. by apply elem_of_nil in Hc'.
  - apply Hsub. congruence.
Qed.

Lemma steps_found (fuel : nat) (initial : GlobalState Fn) (st : state) :
  explore call fuel initial = Finished st →
  ∀ x y, tc step x y → x = initial ∨ x ∈ used st → y ∈ used st.
Proof.
  intros Hrun x y Hxy. induction Hxy as [x y Hs|x y z Hs _ IH]; intros Hx.
  - by eapply step_found.
  - apply IH. right. by eapply step_found.
Qed.

(** X9. When the loop of [main] ends, the final [used] holds exactly the
    global states that one or more steps lead to from the initial one.  (The
    initial global state itself is in it exactly when some steps lead back to
    it.) *)
Theorem used_exact (fuel : nat) (initial : GlobalState Fn) (st : state) :
  explore call fuel initial = Finished st →
  ∀ c, c ∈ used st ↔ tc step initial c.
Proof.
  intros Hrun c. split; [by eapply used_after_step|].
  intros Hc. apply (steps_found fuel initial st Hrun initial c Hc). by left.
Qed.

(** Every transition out of a state that was taken from the queue is
    recorded. *)
Lemma edges_recorded (fuel : nat) (initial : GlobalState Fn) (st : state) :
  explore call fuel initial = Finished st →
  ∀ c c', c = initial ∨ c ∈ used st → step c c' →
    MkTransition c c' ∈ transitions st.
Proof.
  set (P := λ st : state,
    ∀ c, c = initial ∨ c ∈ used st →
      c ∈ queue st ∨ ∀ c', step c c' → MkTransition c c' ∈ transitions st).
  assert (Hbody : ∀ (st0 st1 : state) item rest, queue st0 = item :: rest →
            P st0 → main_body call st0 item rest = Ok st1 → P st1).
  { intros st0 st1 item rest Hq Hinv Hb.
    apply body_spec in Hb as (new_states & Hr & Hused & Hqueue & Htrans).
    assert (Hold : ∀ c, c = initial ∨ c ∈ used st0 →
      c ∈ queue st1 ∨ ∀ c', step c c' → MkTransition c c' ∈ transitions st1).
    { intros c Hc. destruct (Hinv c Hc) as [Hin|Hall].
      - rewrite Hq in Hin. apply elem_of_cons in Hin as [->|Hin].
        + right. intros c' (S & HS & Hc'). apply Htrans. right.
          exists c'. split; [congruence|done].
        + left. apply Hqueue. by left.
      - right. intros c' Hs. apply Htrans. left. by apply Hall. }
    intros c [->|Hc]; [apply Hold; by left|].
    apply Hused in Hc. destruct (elem_of_dec_slow c (used st0)) as [Hin|Hnin].
    - apply Hold. by right.
    - destruct Hc as [?|Hc]; [done|]. left. apply Hqueue. by right. }
  assert (Hinit : P (main_init initial)).
  { intros c [->|Hc]; [left; by left|]. simpl in Hc.
    by apply not_elem_of_empty in Hc. }
  intros Hrun c c' Hc Hs.
  destruct (main_loop_invariant call P Hbody fuel _ st Hinit Hrun) as [Hrec Hq].
  destruct (Hrec c Hc) as [Hin|Hall]; [|by apply Hall].
  rewrite Hq in Hin. by apply elem_of_nil in Hin.
Qed.

(** X10. When the loop of [main] ends, the final [transitions] holds exactly
    the steps out of the global states that steps lead to from the initial
    one, the initial one included: a transition is in it if and only if its
    start is such a state and its end is in the successor set of its
    start. *)
Theorem transitions_exact (fuel : nat) (initial : GlobalState Fn) (st : state) :
  explore call fuel initial = Finished st →
  ∀ tr, tr ∈ transitions st ↔
    reach initial (start tr) ∧ step (start tr) (end_ tr).
Proof.
  intros Hrun tr. split.
  - intros Htr.
    destruct (end_consistent _ _ _ Hrun) as [[_ _ Hsound Hreach] _].
    destruct (Hsound tr Htr) as (Hs & _ & [Hstart|Hstart]).
    + split; [rewrite Hstart; apply rtc_refl|exact Hs].
    + split; [by apply Hreach|exact Hs].
  - intros [Hreach Hs]. destruct tr as [c c']; simpl in *.
    apply (edges_recorded fuel initial st Hrun c c'); [|exact Hs].
    by apply (explore_complete call fuel initial st Hrun).
Qed.

(** *** When the run ends, and how *)

Lemma queue_reachable_body (initial : GlobalState Fn) (st st' : state)
    (item : GlobalState Fn) (rest : list (GlobalState Fn)) :
  (∀ c, c ∈ item :: rest → reach initial c) →
  main_body call st item rest = Ok st' →
  ∀ c, c ∈ queue st' → reach initial c.
Proof.
  intros Hq Hb c Hc.
  apply body_spec in Hb as (new_states & Hr & _ & Hqueue & _).
  apply Hqueue in Hc as [Hc|[Hc _]]; [apply Hq; by right|].
  eapply rtc_r; [apply Hq; by left|]. by exists new_states.
Qed.

Lemma size_split (X U C : StateSet) :
  C ⊆ X → C ## U → (size C + size (X ∖ (U ∪ C)) = size (X ∖ U))%nat.
Proof.
  intros Hsub Hdisj. rewrite <- size_union.
  - apply set_size_proper. intros x.
    rewrite elem_of_union, !elem_of_difference, elem_of_union. split.
    + intros [Hx|[Hx Hn]]; [|tauto]. split; [by apply Hsub|].
      intros Hu. by apply (Hdisj x).
    + intros [Hx Hn]. destruct (elem_of_dec_slow x C); tauto.
  - intros x Hx Hx'. apply elem_of_difference in Hx' as [_ Hn].
    apply Hn, elem_of_union. by right.
Qed.

Lemma main_loop_finishes (X : StateSet) (initial : GlobalState Fn) :
  (∀ c, reach initial c → c ∈ X ∧ ∃ S, run c = Ok S) →
  ∀ (fuel : nat) (st : state),
    (∀ c, c ∈ queue st → reach initial c) →
    (length (queue st) + size (X ∖ used st) ≤ fuel)%nat →
    ∃ st', main_loop call fuel st = Finished st'.
Proof.
  intros HX fuel. induction fuel as [|fuel IH]; intros st Hq Hm; simpl.
  - destruct (queue st); [by eexists|simpl in Hm; lia].
  - destruct (queue st) as [|item rest] eqn:Hqueue; [by eexists|].
    destruct (HX item) as [_ [S HS]]; [apply Hq; by left|].
    destruct (main_body call st item rest) as [st1|e] eqn:Hb.
    + apply IH; [by eapply queue_reachable_body|].
      unfold main_body in Hb. rewrite HS in Hb; simpl in Hb.
      injection Hb as <-; simpl. rewrite length_app.
      change (length (elements (S ∖ used st))) with (size (S ∖ used st)).
      rewrite <- Nat.add_assoc, size_split.
      * simpl in Hm. lia.
      * intros c Hc. apply elem_of_difference in Hc as [Hc _].
        apply HX. eapply rtc_r; [apply Hq; by left|]. by exists S.
      * intros c Hc Hu. by apply elem_of_difference in Hc as [_ Hn].
    + unfold main_body in Hb. by rewrite HS in Hb.
Qed.

(** X11. The loop of [main] ends when the global states that steps lead to
    from the initial one are finitely many and none of them makes
    [GlobalState.run] raise: if they all lie in a set [X], the queue is
    empty after at most one more pass than [X] has elements. *)
Theorem explore_terminates (X : StateSet) (initial : GlobalState Fn) :
  (∀ c, reach initial c → c ∈ X ∧ ∃ S, run c = Ok S) →
  ∃ st : state, explore call (S (size X)) initial = Finished st.
Proof.
  intros HX. apply (main_loop_finishes X initial HX); simpl.
  - intros c Hc. apply list_elem_of_singleton in Hc as ->. apply rtc_refl.
  - assert (size (X ∖ ∅) = size X) as ->; [|done].
    apply set_size_proper. intros x. rewrite elem_of_difference.
    split; [tauto|]. intros Hx. split; [done|]. apply not_elem_of_empty.
Qed.

Lemma main_loop_aborted (initial : GlobalState Fn) (fuel : nat) (st : state)
    (e : exn) :
  (∀ c, c ∈ queue st → reach initial c) →
  main_loop call fuel st = Aborted e →
  ∃ c, reach initial c ∧ run c = Raise e.
Proof.
  revert st. induction fuel as [|fuel IH]; intros st Hq; simpl.
  - by destruct (queue st).
  - destruct (queue st) as [|item rest] eqn:Hqueue; [done|].
    destruct (main_body call st item rest) as [st1|e'] eqn:Hb.
    + apply IH. by eapply queue_reachable_body.
    + intros [= <-]. exists item. split; [apply Hq; by left|].
      unfold main_body in Hb.
      destruct (run item) as [S|e0]; simpl in Hb; [done|congruence].
Qed.

(** X12. An exception that ends the loop of [main] comes from
    [GlobalState.run] on a global state that steps lead to from the initial
    one: nothing else in the loop raises. *)
Theorem explore_aborted (fuel : nat) (initial : GlobalState Fn) (e : exn) :
  explore (StateSet := StateSet) (TransitionSet := TransitionSet)
    call fuel initial = Aborted e →
  ∃ c, reach initial c ∧ run c = Raise e.
Proof.
  apply main_loop_aborted. simpl. intros c Hc.
  apply list_elem_of_singleton in Hc as ->. apply rtc_refl.
Qed.

(** X13. The loop of [main] does not end with an empty queue when
    [GlobalState.run] raises on some global state that steps lead to from the
    initial one, however many passes it is given: the run then ends with an
    exception or goes on. *)
Theorem explore_not_finished (fuel : nat) (initial c : GlobalState Fn) (e : exn) :
  reach initial c → run c = Raise e →
  finishes (explore (StateSet := StateSet) (TransitionSet := TransitionSet)
              call fuel initial) = false.
Proof.
  intros Hc Hraise.
  destruct (explore call fuel initial) as [st| |] eqn:Hrun; [|done..].
  destruct (end_consistent _ _ _ Hrun) as [[Hexp _ _ _] Hq].
  apply (explore_complete call fuel initial st Hrun) in Hc.
  destruct (Hexp c Hc) as [Hin|(S & HS & _)]; [|congruence].
  rewrite Hq in Hin. by apply elem_of_nil in Hin.
Qed.

(** *** How many passes the run takes *)

Lemma main_loop_passes (fuel : nat) (st st' : state) :
  main_loop call fuel st = Finished st' →
  ∃ n : nat,
    (n + size (used st) = size (used st') + length (queue st))%nat ∧
    (n ≤ fuel)%nat ∧ main_loop call n st = Finished st'.
Proof.
  revert st. induction fuel as [|fuel IH]; intros st; simpl.
  - destruct (queue st) eqn:Hq; [|done]. intros [= <-].
    exists 0%nat. simpl. rewrite Hq. split; [simpl; lia|]. split; [lia|done].
  - destruct (queue st) as [|item rest] eqn:Hq.
    + intros [= <-]. exists 0%nat. simpl. rewrite Hq.
      split; [simpl; lia|]. split; [lia|done].
    + destruct (main_body call st item rest) as [st1|] eqn:Hb; [|done].
      intros Hrun. destruct (IH st1 Hrun) as (n & Hn & Hle & Hloop).
      exists (S n). split; [|split; [lia|]].
      * unfold main_body in Hb.
        destruct (run item) as [new_states|]; simpl in Hb; [|done].
        injection Hb as <-. simpl in Hn. rewrite length_app in Hn.
        change (length (elements (new_states ∖ used st)))
          with (size (new_states ∖ used st)) in Hn.
        rewrite size_union in Hn.
        -- simpl. lia.
        -- intros c Hc Hc'. by apply elem_of_difference in Hc' as [_ Hnot].
      * simpl. by rewrite Hq, Hb.
Qed.

(** X17. A run of the loop of [main] that ends with an empty queue takes
    exactly one pass more than the final [used] has elements: it does not
    end in fewer passes, and that many passes give the same final sets.
    Every global state is taken from the queue once for each time it is put
    there: the initial one at the start, and each element of [used] when it
    is added. *)
Theorem explore_passes (fuel : nat) (initial : GlobalState Fn) (st : state) :
  explore call fuel initial = Finished st →
  (S (size (used st)) ≤ fuel)%nat ∧
  explore call (S (size (used st))) initial = Finished st.
Proof.
  intros Hrun. apply main_loop_passes in Hrun as (n & Hn & Hle & Hloop).
  simpl in Hn. rewrite size_empty in Hn.
  assert (n = S (size (used st))) as -> by lia. done.
Qed.

End LoopEdges.

Section TwoOrders.

Context {Fn : Type} `{EqDecision Fn}.
Variable call : Fn → Memory → Memory → PyTuple.

(** Two implementations of the sets of [main], with whatever order of
    iteration each has. *)
Context {StateSet1 : Type}
  `{ElemOf (GlobalState Fn) StateSet1, Empty StateSet1,
    Singleton (GlobalState Fn) StateSet1,
    Union StateSet1, Intersection StateSet1, Difference StateSet1,
    Elements (GlobalState Fn) StateSet1}
  `{!FinSet (GlobalState Fn) StateSet1}.
Context {TransitionSet1 : Type}
  `{ElemOf (Transition Fn) TransitionSet1, Empty TransitionSet1,
    Singleton (Transition Fn) TransitionSet1, Union TransitionSet1,
    Intersection TransitionSet1, Difference TransitionSet1,
    Elements (Transition Fn) TransitionSet1}
  `{!FinSet (Transition Fn) TransitionSet1}.
Context {StateSet2 : Type}
  `{ElemOf (GlobalState Fn) StateSet2, Empty StateSet2,
    Singleton (GlobalState Fn) StateSet2,
    Union StateSet2, Intersection StateSet2, Difference StateSet2,
    Elements (GlobalState Fn) StateSet2}
  `{!FinSet (GlobalState Fn) StateSet2}.
Context {TransitionSet2 : Type}
  `{ElemOf (Transition Fn) TransitionSet2, Empty TransitionSet2,
    Singleton (Transition Fn) TransitionSet2, Union TransitionSet2,
    Intersection TransitionSet2, Difference TransitionSet2,
    Elements (Transition Fn) TransitionSet2}
  `{!FinSet (Transition Fn) TransitionSet2}.

Local Abbreviation step1 := (successor (StateSet := StateSet1) call).
Local Abbreviation step2 := (successor (StateSet := StateSet2) call).

Lemma step_any_order (c c' : GlobalState Fn) : step1 c c' ↔ step2 c c'.
Proof. by rewrite !successor_alt. Qed.

Lemma tc_any_order (c c' : GlobalState Fn) : tc step1 c c' ↔ tc step2 c c'.
Proof.
  split; intros Hc; induction Hc as [x y Hs|x y z Hs _ IH].
  - apply tc_once. by apply step_any_order.
  - eapply tc_l; [|exact IH]. by apply step_any_order.
  - apply tc_once. by apply step_any_order.
  - eapply tc_l; [|exact IH]. by apply step_any_order.
Qed.

(** X14. The order in which the sets are iterated does not change what the
    run ends with: two runs of the loop of [main] from the same initial
    global state, with two implementations of the sets and with any numbers
    of passes allowed, that both end with an empty queue end with the same
    global states in [used] and the same transitions in [transitions]. *)
Theorem explore_any_order (fuel1 fuel2 : nat) (initial : GlobalState Fn)
    (st1 : Explorer Fn StateSet1 TransitionSet1)
    (st2 : Explorer Fn StateSet2 TransitionSet2) :
  explore call fuel1 initial = Finished st1 →
  explore call fuel2 initial = Finished st2 →
  (∀ c, c ∈ used st1 ↔ c ∈ used st2) ∧
  (∀ tr, tr ∈ transitions st1 ↔ tr ∈ transitions st2).
Proof.
  intros Hrun1 Hrun2.
  assert (Hused : ∀ c, c ∈ used st1 ↔ c ∈ used st2).
  { intros c. split; intros Hc.
    - apply (used_after_step call _ _ _ Hrun1), tc_any_order in Hc.
      apply (steps_found call _ _ _ Hrun2 initial c Hc). by left.
    - apply (used_after_step call _ _ _ Hrun2), tc_any_order in Hc.
      apply (steps_found call _ _ _ Hrun1 initial c Hc). by left. }
  split; [done|]. intros [c c']. split; intros Htr.
  - destruct (explore_consistent call _ _ _ Hrun1) as [[_ _ Hsound _] _].
    destruct (Hsound _ Htr) as (Hs & _ & Hstart); simpl in *.
    apply (edges_recorded call _ _ _ Hrun2); [|by apply step_any_order].
    destruct Hstart as [?|?]; [by left|right; by apply Hused].
  - destruct (explore_consistent call _ _ _ Hrun2) as [[_ _ Hsound _] _].
    destruct (Hsound _ Htr) as (Hs & _ & Hstart); simpl in *.
    apply (edges_recorded call _ _ _ Hrun1); [|by apply step_any_order].
    destruct Hstart as [?|?]; [by left|right; by apply Hused].
Qed.

End TwoOrders.

(** * Properties of the rendering *)

Section Rendering.

Context {Fn : Type}.

Lemma sort_any_order (keys1 keys2 : list string) :
  keys1 ≡ₚ keys2 → merge_sort String.le keys1 = merge_sort String.le keys2.
Proof.
  intros Hperm. apply (Sorted_unique String.le).
  - apply Sorted_merge_sort; apply _.
  - apply Sorted_merge_sort; apply _.
  - by rewrite !merge_sort_Permutation.
Qed.

Lemma threads_part (l : list (Thread Fn)) (acc : string) :
  foldl (λ result i,
           result +:+ print_to_string [PyStr (name i); PyInt (current_state i)]
                        "" ",") acc l =
  foldl (λ result p, result +:+ print_to_string [PyStr p.1; PyInt p.2] "" ",")
    acc (shown <$> l).
Proof. revert acc. induction l as [|t l IH]; intros acc; simpl; [done|apply IH]. Qed.

(** X15. [GlobalState.__str__] does not depend on the order in which the
    dictionary of the shared memory lists its keys: whatever that order, the
    values come out in the order of the sorted variable names, and the
    string is the same. *)
Theorem GlobalState_str_any_key_order (keys : list string) (self : GlobalState Fn) :
  keys ≡ₚ (map_to_list (vars (shared_memory self))).*1 →
  GlobalState_str_from keys self = GlobalState_str self.
Proof.
  intros Hperm. unfold GlobalState_str, GlobalState_str_from.
  by rewrite (sort_any_order _ _ Hperm).
Qed.

(** X16. [GlobalState.__str__] shows the names and the program counters of
    the threads and the values of the shared variables, and nothing else:
    two global states with the same shared memory and, thread by thread, the
    same names and program counters have the same string, whatever their
    running flags, local memories and tables are. *)
Theorem GlobalState_str_shows (c c' : GlobalState Fn) :
  shared_memory c = shared_memory c' →
  shown <$> threads c = shown <$> threads c' →
  GlobalState_str c = GlobalState_str c'.
Proof.
  intros Hsh Hth. unfold GlobalState_str, GlobalState_str_from.
  by rewrite !threads_part, Hsh, Hth.
Qed.

End Rendering.

(** The strings of the initial global state of [main] and of the first
    transition of [P]. *)
Example GlobalState_str_initial : GlobalState_str Main.initial = "[P1,Q1,0,0]".
Proof. vm_compute. reflexivity. Qed.

Example Transition_str_blocked :
  Transition_str (MkTransition Main.blocked Main.blocked_next)
    = "[P1,Q4,0,1] -> [P2,Q4,1,1]".
Proof. vm_compute. reflexivity. Qed.

(** * The further theorems on the models *)

(** X2 on the shared memory [main] starts with: [a = 0] changes nothing. *)
Lemma Memory_set_same_values_main :
  Memory_set (MkMemory main_vars) {[ "a" := 0 ]} = Ok (MkMemory main_vars).
Proof.
  apply (Memory_set_same_values (MkMemory main_vars) {[ "a" := 0 ]}).
  - reflexivity.
  - apply map_subseteq_spec. intros k v Hk.
    apply lookup_singleton_Some in Hk as [<- <-]. reflexivity.
Defined.

(** X3 on the assignments of [P] and [Q] in [main]. *)
Lemma Memory_set_commute_main :
  (m1 ← Memory_set (MkMemory main_vars) {[ "a" := 1 ]};
   Memory_set m1 {[ "b" := 1 ]}) =
  (m2 ← Memory_set (MkMemory main_vars) {[ "b" := 1 ]};
   Memory_set m2 {[ "a" := 1 ]}).
Proof.
  apply (Memory_set_commute (MkMemory main_vars) {[ "a" := 1 ]} {[ "b" := 1 ]}).
  apply map_disjoint_singleton_l. reflexivity.
Defined.

(** X4 on scenario A: program counter 1 is outside the one-entry table. *)
Lemma Thread_run_raises_scenario_A :
  Thread_run ScenarioA.call
    (MkThread (MkMemory ∅) ScenarioA.table "P" 1 true) ScenarioA.x1
    = Raise IndexError.
Proof.
  apply (proj1 (Thread_run_raises ScenarioA.call
                  (MkThread (MkMemory ∅) ScenarioA.table "P" 1 true)
                  ScenarioA.x1)).
  simpl. lia.
Defined.

(** X5 on the two-entry table of scenario A: program counter -1 is entry 1. *)
Lemma Thread_run_negative_pc_loop :
  Thread_run ScenarioA.call
    (MkThread (MkMemory ∅) ScenarioA.table_loop "P" (-1) true) ScenarioA.x0 =
  Thread_run ScenarioA.call
    (MkThread (MkMemory ∅) ScenarioA.table_loop "P" 1 true) ScenarioA.x0.
Proof.
  apply (Thread_run_negative_pc ScenarioA.call (MkMemory ∅) ScenarioA.table_loop
           "P" (-1) true ScenarioA.x0).
  simpl. lia.
Defined.

Lemma blocked_steps : reachable_list Main.call Main.blocked Main.blocked_next.
Proof.
  apply rtc_once. exists {[ Main.blocked_next ]}. split.
  - vm_compute. reflexivity.
  - apply elem_of_singleton. reflexivity.
Defined.

(** X6 on [main]'s model, for the step of [P] after [Q] has stopped. *)
Lemma reachable_same_processes_main :
  name <$> threads Main.blocked_next = name <$> threads Main.blocked ∧
  states <$> threads Main.blocked_next = states <$> threads Main.blocked.
Proof.
  apply (reachable_same_processes (StateSet := listset _) Main.call
           Main.blocked Main.blocked_next).
  exact blocked_steps.
Defined.

(** X7 on the initial global state of [main]: at most two successors. *)
Lemma GlobalState_run_size_main :
  ∃ S, run_list Main.call Main.initial = Ok S ∧
       (size S ≤ length (filter (λ t, is_running t = true)
                           (threads Main.initial)))%nat.
Proof.
  assert (Hret : run_returns Main.initial = true) by (vm_compute; reflexivity).
  unfold run_returns in Hret.
  destruct (run_list Main.call Main.initial) as [S|] eqn:Hrun;
    [|discriminate Hret].
  exists S. split; [reflexivity|].
  exact (GlobalState_run_size Main.call Main.initial S Hrun).
Defined.

(** X8 on scenario A: the exception is that of the only thread. *)
Lemma GlobalState_run_raises_scenario_A :
  ∃ (i : nat) (thread : Thread ScenarioA.fn),
    threads (ScenarioA.at_pc ScenarioA.table ScenarioA.x1 1) !! i = Some thread ∧
    is_running thread = true ∧
    Thread_run ScenarioA.call thread ScenarioA.x1 = Raise IndexError ∧
    ∀ (j : nat) (t : Thread ScenarioA.fn),
      (j < i)%nat →
      threads (ScenarioA.at_pc ScenarioA.table ScenarioA.x1 1) !! j = Some t →
      is_running t = true →
      ∃ r, Thread_run ScenarioA.call t ScenarioA.x1 = Ok r.
Proof.
  apply (proj1 (GlobalState_run_raises (StateSet := listset _) ScenarioA.call
                  (ScenarioA.at_pc ScenarioA.table ScenarioA.x1 1) IndexError)).
  vm_compute. reflexivity.
Defined.

(** X9 on the run of [main]. *)
Lemma used_exact_main :
  ∃ st : ListExplorer Main.fn,
    explore_list Main.call main_fuel Main.initial = Finished st ∧
    ∀ c, c ∈ used st ↔
         tc (successor (StateSet := listset _) Main.call) Main.initial c.
Proof.
  assert (Hfin : finishes (explore_list Main.call main_fuel Main.initial) = true)
    by (vm_compute; reflexivity).
  destruct (explore_list Main.call main_fuel Main.initial) as [st| |] eqn:Hrun;
    [|discriminate Hfin..].
  exists st. split; [reflexivity|].
  exact (used_exact Main.call main_fuel Main.initial st Hrun).
Defined.

(** X10 on the run of [main]. *)
Lemma transitions_exact_main :
  ∃ st : ListExplorer Main.fn,
    explore_list Main.call main_fuel Main.initial = Finished st ∧
    ∀ tr, tr ∈ transitions st ↔
      reachable_list Main.call Main.initial (start tr) ∧
      successor (StateSet := listset _) Main.call (start tr) (end_ tr).
Proof.
  assert (Hfin : finishes (explore_list Main.call main_fuel Main.initial) = true)
    by (vm_compute; reflexivity).
  destruct (explore_list Main.call main_fuel Main.initial) as [st| |] eqn:Hrun;
    [|discriminate Hfin..].
  exists st. split; [reflexivity|].
  exact (transitions_exact Main.call main_fuel Main.initial st Hrun).
Defined.

Lemma blocking_reachable (c : GlobalState Blocking.fn) :
  reachable_list Blocking.call Blocking.initial c →
  c = Blocking.initial ∨ c = Blocking.stopped.
Proof.
  apply (rtc_ind_r (λ c, c = Blocking.initial ∨ c = Blocking.stopped));
    [by left|].
  intros c1 c2 _ (S & HS & Hin) [->| ->].
  - assert (Hrun : run_list Blocking.call Blocking.initial
                   = Ok {[ Blocking.stopped ]}) by (vm_compute; reflexivity).
    rewrite Hrun in HS. injection HS as <-.
    apply elem_of_singleton in Hin. by right.
  - assert (Hrun : run_list Blocking.call Blocking.stopped = Ok ∅)
      by (vm_compute; reflexivity).
    rewrite Hrun in HS. injection HS as <-.
    by apply not_elem_of_empty in Hin.
Qed.

(** X11 on the blocking model: two global states, three passes at most. *)
Lemma explore_terminates_blocking :
  ∃ st : ListExplorer Blocking.fn,
    explore_list Blocking.call (S (size blocking_states)) Blocking.initial
      = Finished st.
Proof.
  apply (explore_terminates Blocking.call blocking_states Blocking.initial).
  intros c Hc. apply blocking_reachable in Hc as [->| ->].
  - split; [apply elem_of_union; left; by apply elem_of_singleton|].
    eexists. vm_compute. reflexivity.
  - split; [apply elem_of_union; right; by apply elem_of_singleton|].
    eexists. vm_compute. reflexivity.
Defined.

(** X12 on scenario A: the [IndexError] that ends the run. *)
Lemma explore_aborted_scenario_A :
  ∃ c, reachable_list ScenarioA.call ScenarioA.initial c ∧
       run_list ScenarioA.call c = Raise IndexError.
Proof.
  apply (explore_aborted (TransitionSet := listset _) ScenarioA.call 2%nat
           ScenarioA.initial IndexError).
  vm_compute. reflexivity.
Defined.

Lemma scenario_A_step :
  reachable_list ScenarioA.call ScenarioA.initial
    (ScenarioA.at_pc ScenarioA.table ScenarioA.x1 1).
Proof.
  apply rtc_once. exists {[ ScenarioA.at_pc ScenarioA.table ScenarioA.x1 1 ]}.
  split.
  - vm_compute. reflexivity.
  - apply elem_of_singleton. reflexivity.
Defined.

(** X13 on scenario A: seven passes do not empty the queue either. *)
Lemma explore_not_finished_scenario_A :
  finishes (explore_list ScenarioA.call 7 ScenarioA.initial) = false.
Proof.
  apply (explore_not_finished ScenarioA.call 7%nat ScenarioA.initial
           (ScenarioA.at_pc ScenarioA.table ScenarioA.x1 1) IndexError).
  - exact scenario_A_step.
  - vm_compute. reflexivity.
Defined.

(** X14 on the run of [main], with sets kept as lists and as lists without
    repetitions. *)
Lemma explore_any_order_main :
  ∃ (st1 : ListExplorer Main.fn)
    (st2 : Explorer Main.fn (listset_nodup (GlobalState Main.fn))
             (listset_nodup (Transition Main.fn))),
    explore_list Main.call main_fuel Main.initial = Finished st1 ∧
    explore_nodup Main.call 20 Main.initial = Finished st2 ∧
    (∀ c, c ∈ used st1 ↔ c ∈ used st2) ∧
    (∀ tr, tr ∈ transitions st1 ↔ tr ∈ transitions st2).
Proof.
  assert (Hfin1 : finishes (explore_list Main.call main_fuel Main.initial) = true)
    by (vm_compute; reflexivity).
  assert (Hfin2 : finishes (explore_nodup Main.call 20 Main.initial) = true)
    by (vm_compute; reflexivity).
  destruct (explore_list Main.call main_fuel Main.initial) as [st1| |] eqn:Hrun1;
    [|discriminate Hfin1..].
  destruct (explore_nodup Main.call 20 Main.initial) as [st2| |] eqn:Hrun2;
    [|discriminate Hfin2..].
  exists st1, st2. split; [reflexivity|]. split; [reflexivity|].
  exact (explore_any_order Main.call main_fuel 20 Main.initial st1 st2 Hrun1 Hrun2).
Defined.

(** X15 on the initial global state of [main], with the keys listed as
    [b], [a]. *)
Lemma GlobalState_str_any_key_order_main :
  GlobalState_str_from ["b"; "a"] Main.initial = GlobalState_str Main.initial.
Proof.
  apply (GlobalState_str_any_key_order ["b"; "a"] Main.initial).
  vm_compute. apply perm_swap.
Defined.

(** X16 on [main]'s model: a running [Q] with a local variable shows like the
    stopped [Q]. *)
Lemma GlobalState_str_shows_blocked :
  GlobalState_str Main.blocked = GlobalState_str blocked_variant.
Proof.
  apply (GlobalState_str_shows Main.blocked blocked_variant); reflexivity.
Defined.

(** X17 on the run of [main]: twenty passes allowed, fifteen taken. *)
Lemma explore_passes_main :
  ∃ st : ListExplorer Main.fn,
    explore_list Main.call 20 Main.initial = Finished st ∧
    (S (size (used st)) ≤ 20)%nat ∧
    explore_list Main.call (S (size (used st))) Main.initial = Finished st.
Proof.
  assert (Hfin : finishes (explore_list Main.call 20 Main.initial) = true)
    by (vm_compute; reflexivity).
  destruct (explore_list Main.call 20 Main.initial) as [st| |] eqn:Hrun;
    [|discriminate Hfin..].
  exists st. split; [reflexivity|].
  exact (explore_passes Main.call 20 Main.initial st Hrun).
Defined.
